(** * Erasure-code recovery with a length-4 Fourier transform

    A shallow embedding of the two demonstration programs of the repository,
    [finite.c] (integers modulo 17) and [main.c] (complex integers), and the
    properties of their arithmetic, transforms, scaling and recovery
    pipeline.

    Both programs compute on the C type [int].  An [int] is modelled as a
    [Z] together with the range check of a 32-bit signed integer: an
    arithmetic result outside the range, a division by zero and an array
    access outside its bounds have no defined behaviour in C and are the
    outcome [Undef]; a failed [assert] is the outcome [Abort].  Printing
    is kept as the sequence of arrays that [print_poly] receives. *)

From Stdlib Require Import ZArith Zdiv List Bool Lia String Ascii.
From Stdlib Require Import DecimalString DecimalZ DecimalPos Setoid Morphisms.
Import ListNotations.
Open Scope Z_scope.

(** ** Outcomes of a C computation *)

Inductive outcome (A : Type) : Type :=
| Ret (a : A)
| Undef
| Abort.

Arguments Ret {A} a.
Arguments Undef {A}.
Arguments Abort {A}.

Definition bind {A B : Type} (m : outcome A) (f : A -> outcome B) : outcome B :=
  match m with
  | Ret a => f a
  | Undef => Undef
  | Abort => Abort
  end.

Notation "x <- m ;; k" := (bind m (fun x => k))
  (at level 61, m at next level, right associativity).
Notation "m ;;; k" := (bind m (fun _ => k))
  (at level 61, right associativity).

(** [assert(b)] of <assert.h>. *)
Definition assert (b : bool) : outcome unit :=
  if b then Ret tt else Abort.

(** ** The C type [int] *)

Definition INT_MIN : Z := -2147483648.
Definition INT_MAX : Z := 2147483647.

Definition in_int (z : Z) : bool := (INT_MIN <=? z) && (z <=? INT_MAX).

Definition chk (z : Z) : outcome Z := if in_int z then Ret z else Undef.

Definition iadd (a b : Z) : outcome Z := chk (a + b).
Definition isub (a b : Z) : outcome Z := chk (a - b).
Definition imul (a b : Z) : outcome Z := chk (a * b).
Definition ineg (a : Z) : outcome Z := chk (- a).

(** [a / b] truncates toward zero. *)
Definition idiv (a b : Z) : outcome Z :=
  if b =? 0 then Undef else chk (Z.quot a b).

(** [a % b] has the sign of [a]. *)
Definition irem (a b : Z) : outcome Z :=
  if b =? 0 then Undef
  else if (a =? INT_MIN) && (b =? -1) then Undef
  else Ret (Z.rem a b).

(** ** Arrays of four elements *)

Record arr4 (A : Type) : Type := A4 { at0 : A; at1 : A; at2 : A; at3 : A }.

Arguments A4 {A} _ _ _ _.
Arguments at0 {A} _.
Arguments at1 {A} _.
Arguments at2 {A} _.
Arguments at3 {A} _.

(** The values of a loop counter [j] with [0 <= j < 4]. *)
Inductive idx : Type := J0 | J1 | J2 | J3.

Definition get {A : Type} (a : arr4 A) (j : idx) : A :=
  match j with
  | J0 => at0 a
  | J1 => at1 a
  | J2 => at2 a
  | J3 => at3 a
  end.

Definition set {A : Type} (a : arr4 A) (j : idx) (v : A) : arr4 A :=
  match j with
  | J0 => A4 v (at1 a) (at2 a) (at3 a)
  | J1 => A4 (at0 a) v (at2 a) (at3 a)
  | J2 => A4 (at0 a) (at1 a) v (at3 a)
  | J3 => A4 (at0 a) (at1 a) (at2 a) v
  end.

(** [for (int j = 0; j < 4; j++) s = body(j, s);] *)
Definition for4 {S : Type} (body : idx -> S -> outcome S) (s : S) : outcome S :=
  s <- body J0 s ;;
  s <- body J1 s ;;
  s <- body J2 s ;;
  body J3 s.

(** [int t[] = {...}; ... t[n]]: reading past either end is undefined. *)
Definition index (t : list Z) (n : Z) : outcome Z :=
  if n <? 0 then Undef
  else match nth_error t (Z.to_nat n) with
       | Some v => Ret v
       | None => Undef
       end.

(** ** Formatted output *)

(** [printf("%d", n)] *)
Definition dec (n : Z) : string := NilZero.string_of_int (Z.to_int n).

(** [printf("%18s", s)]: right-justified in a field of 18 characters. *)
Definition pad18 (s : string) : string :=
  (string_of_list_ascii (repeat " "%char (18 - String.length s)) ++ s)%string.

Definition newline : string := String "010"%char EmptyString.

(** ** finite.c: the integers modulo 17 *)

Module Finite.

Definition MOD : Z := 17.

(** Fourth root of 1 *)
Definition i : Z := 4.

Definition poly : Type := arr4 Z.

Definition equal (a b : Z) : outcome bool :=
  x <- irem a MOD ;;
  y <- irem b MOD ;;
  Ret (x =? y).

Definition neg (a : Z) : outcome Z := isub MOD a.

Definition add (a b : Z) : outcome Z :=
  s <- iadd a b ;;
  irem s MOD.

Definition sub (a b : Z) : outcome Z :=
  n <- neg b ;;
  s <- iadd a n ;;
  irem s MOD.

Definition mul (a b : Z) : outcome Z :=
  p <- imul a b ;;
  irem p MOD.

Definition inv : list Z :=
  [0; 1; 9; 6; 13; 7; 3; 5; 15; 2; 12; 14; 10; 4; 11; 8; 16].

Definition div (a b : Z) : outcome Z :=
  r <- irem b MOD ;;
  v <- index inv r ;;
  p <- imul a v ;;
  ret <- irem p MOD ;;
  m <- mul ret b ;;
  e <- equal a m ;;
  assert e ;;;
  Ret ret.

Definition eval_from_poly (coeffs : poly) : outcome poly :=
  c0_p_c2 <- add (at0 coeffs) (at2 coeffs) ;;
  c0_m_c2 <- sub (at0 coeffs) (at2 coeffs) ;;
  c1_p_c3 <- add (at1 coeffs) (at3 coeffs) ;;
  c1_m_c3 <- sub (at1 coeffs) (at3 coeffs) ;;
  e0 <- add c0_p_c2 c1_p_c3 ;;
  t1 <- mul i c1_m_c3 ;;
  e1 <- add c0_m_c2 t1 ;;
  e2 <- sub c0_p_c2 c1_p_c3 ;;
  t3 <- mul i c1_m_c3 ;;
  e3 <- sub c0_m_c2 t3 ;;
  Ret (A4 e0 e1 e2 e3).

Definition poly_from_eval (eval : poly) : outcome poly :=
  c0_p_c2 <- add (at0 eval) (at2 eval) ;;
  c0_m_c2 <- sub (at0 eval) (at2 eval) ;;
  c1_p_c3 <- add (at1 eval) (at3 eval) ;;
  c1_m_c3 <- sub (at1 eval) (at3 eval) ;;
  k0 <- add c0_p_c2 c1_p_c3 ;;
  t1 <- mul i c1_m_c3 ;;
  k1 <- sub c0_m_c2 t1 ;;
  k2 <- sub c0_p_c2 c1_p_c3 ;;
  t3 <- mul i c1_m_c3 ;;
  k3 <- add c0_m_c2 t3 ;;
  for4 (fun j coeffs => q <- div (get coeffs j) 4 ;; Ret (set coeffs j q))
       (A4 k0 k1 k2 k3).

Definition scale (a : poly) (k : Z) : outcome poly :=
  let fac := k in
  a1 <- mul (at1 a) fac ;;
  let a := set a J1 a1 in
  fac <- mul fac k ;;
  a2 <- mul (at2 a) fac ;;
  let a := set a J2 a2 in
  fac <- mul fac k ;;
  a3 <- mul (at3 a) fac ;;
  Ret (set a J3 a3).

Definition unscale (a : poly) (k : Z) : outcome poly :=
  let fac := k in
  a1 <- div (at1 a) fac ;;
  let a := set a J1 a1 in
  fac <- mul fac k ;;
  a2 <- div (at2 a) fac ;;
  let a := set a J2 a2 in
  fac <- mul fac k ;;
  a3 <- div (at3 a) fac ;;
  Ret (set a J3 a3).

(** What [print_poly] writes: a label and the four values. *)
Definition report : Type := list (string * poly).

(** [int a[4];] before its first assignment. Every element is written
    before it is read. *)
Definition fresh : poly := A4 0 0 0 0.

(** The body of [main]. Its sample values are the arguments: the data
    polynomial, the positions that are lost, the zero polynomial and the
    scale factor. The result is the sequence of [print_poly] calls. *)
Definition recover (data_poly : poly) (lost : list idx) (zero_poly : poly)
    (k : Z) : outcome report :=
  let out := [("Initial values"%string, data_poly)] in
  data_eval <- eval_from_poly data_poly ;;
  let out := out ++ [("Data encoded"%string, data_eval)] in
  let data_eval := fold_left (fun e j => set e j 0) lost data_eval in
  let out := out ++ [("Data with missing"%string, data_eval)] in
  zero_poly_eval <- eval_from_poly zero_poly ;;
  let out := out ++ [("ZeroPoly eval"%string, zero_poly_eval)] in
  ez_eval <- for4 (fun j ez_eval =>
                     m <- mul (get data_eval j) (get zero_poly_eval j) ;;
                     Ret (set ez_eval j m)) fresh ;;
  let out := out ++ [("EZ eval"%string, ez_eval)] in
  dz_poly <- poly_from_eval ez_eval ;;
  let out := out ++ [("EZ = DZ poly"%string, dz_poly)] in
  dz_poly <- scale dz_poly k ;;
  zero_poly <- scale zero_poly k ;;
  let out := out ++ [("DZ poly scaled"%string, dz_poly)] in
  let out := out ++ [("ZeroPoly scaled"%string, zero_poly)] in
  dz_scaled_eval <- eval_from_poly dz_poly ;;
  zero_scaled_eval <- eval_from_poly zero_poly ;;
  let out := out ++ [("DZ eval scaled"%string, dz_scaled_eval)] in
  let out := out ++ [("Zero eval scaled"%string, zero_scaled_eval)] in
  quotient_eval <- for4 (fun j quotient_eval =>
                           q <- div (get dz_scaled_eval j) (get zero_scaled_eval j) ;;
                           Ret (set quotient_eval j q)) fresh ;;
  let out := out ++ [("Quotient eval"%string, quotient_eval)] in
  recovered_poly <- poly_from_eval quotient_eval ;;
  let out := out ++ [("Scaled recovered"%string, recovered_poly)] in
  recovered_poly <- unscale recovered_poly k ;;
  Ret (out ++ [("Recovered values"%string, recovered_poly)]).

Definition data_poly : poly := A4 5 7 0 0.
Definition zero_poly : poly := A4 13 14 1 0.

Definition main : outcome report := recover data_poly [J1; J2] zero_poly 2.

(** The array printed under a label. *)
Definition printed (s : string) (r : report) : option poly :=
  option_map snd (find (fun l => String.eqb (fst l) s) r).

(** The line that [print_poly] writes. *)
Definition print_poly (s : string) (a : poly) : string :=
  (pad18 s ++ ": [" ++ dec (at0 a) ++ ", " ++ dec (at1 a) ++ ", "
           ++ dec (at2 a) ++ ", " ++ dec (at3 a) ++ "]" ++ newline)%string.

End Finite.

(** ** main.c: the complex integers *)

Module Complex.

Record complex : Type := new_complex { re : Z; im : Z }.

Definition zero : complex := new_complex 0 0.
Definition i : complex := new_complex 0 1.
Definition two : complex := new_complex 2 0.
Definition four : complex := new_complex 4 0.

Definition poly : Type := arr4 complex.

Definition equal (a b : complex) : bool :=
  (re a =? re b) && (im a =? im b).

Definition cconj (a : complex) : outcome complex :=
  n <- ineg (im a) ;;
  Ret (new_complex (re a) n).

Definition add (a b : complex) : outcome complex :=
  r <- iadd (re a) (re b) ;;
  m <- iadd (im a) (im b) ;;
  Ret (new_complex r m).

Definition sub (a b : complex) : outcome complex :=
  r <- isub (re a) (re b) ;;
  m <- isub (im a) (im b) ;;
  Ret (new_complex r m).

Definition mul (a b : complex) : outcome complex :=
  rr <- imul (re a) (re b) ;;
  ii <- imul (im a) (im b) ;;
  r <- isub rr ii ;;
  ri <- imul (re a) (im b) ;;
  ir <- imul (im a) (re b) ;;
  m <- iadd ri ir ;;
  Ret (new_complex r m).

Definition div (a b : complex) : outcome complex :=
  b_conj <- cconj b ;;
  ab_conj <- mul a b_conj ;;
  bb_conj <- mul b b_conj ;;
  qr <- idiv (re ab_conj) (re bb_conj) ;;
  qi <- idiv (im ab_conj) (re bb_conj) ;;
  let ret := new_complex qr qi in
  m <- mul ret b ;;
  assert (equal a m) ;;;
  Ret ret.

Definition eval_from_poly (coeffs : poly) : outcome poly :=
  c0_p_c2 <- add (at0 coeffs) (at2 coeffs) ;;
  c0_m_c2 <- sub (at0 coeffs) (at2 coeffs) ;;
  c1_p_c3 <- add (at1 coeffs) (at3 coeffs) ;;
  c1_m_c3 <- sub (at1 coeffs) (at3 coeffs) ;;
  e0 <- add c0_p_c2 c1_p_c3 ;;
  t1 <- mul i c1_m_c3 ;;
  e1 <- add c0_m_c2 t1 ;;
  e2 <- sub c0_p_c2 c1_p_c3 ;;
  t3 <- mul i c1_m_c3 ;;
  e3 <- sub c0_m_c2 t3 ;;
  Ret (A4 e0 e1 e2 e3).

Definition poly_from_eval (eval : poly) : outcome poly :=
  c0_p_c2 <- add (at0 eval) (at2 eval) ;;
  c0_m_c2 <- sub (at0 eval) (at2 eval) ;;
  c1_p_c3 <- add (at1 eval) (at3 eval) ;;
  c1_m_c3 <- sub (at1 eval) (at3 eval) ;;
  k0 <- add c0_p_c2 c1_p_c3 ;;
  t1 <- mul i c1_m_c3 ;;
  k1 <- sub c0_m_c2 t1 ;;
  k2 <- sub c0_p_c2 c1_p_c3 ;;
  t3 <- mul i c1_m_c3 ;;
  k3 <- add c0_m_c2 t3 ;;
  for4 (fun j coeffs => q <- div (get coeffs j) four ;; Ret (set coeffs j q))
       (A4 k0 k1 k2 k3).

Definition scale (a : poly) (k : complex) : outcome poly :=
  let fac := k in
  a1 <- mul (at1 a) fac ;;
  let a := set a J1 a1 in
  fac <- mul fac k ;;
  a2 <- mul (at2 a) fac ;;
  let a := set a J2 a2 in
  fac <- mul fac k ;;
  a3 <- mul (at3 a) fac ;;
  Ret (set a J3 a3).

Definition unscale (a : poly) (k : complex) : outcome poly :=
  let fac := k in
  a1 <- div (at1 a) fac ;;
  let a := set a J1 a1 in
  fac <- mul fac k ;;
  a2 <- div (at2 a) fac ;;
  let a := set a J2 a2 in
  fac <- mul fac k ;;
  a3 <- div (at3 a) fac ;;
  Ret (set a J3 a3).

(** What [print_poly] writes: a label and the four values. *)
Definition report : Type := list (string * poly).

(** [complex a[4];] before its first assignment. Every element is written
    before it is read. *)
Definition fresh : poly := A4 zero zero zero zero.

(** The body of [main]. Its sample values are the arguments: the data
    polynomial, the positions that are lost, the zero polynomial and the
    scale factor. The result is the sequence of [print_poly] calls. *)
Definition recover (data_poly : poly) (lost : list idx) (zero_poly : poly)
    (k : complex) : outcome report :=
  let out := [("Initial values"%string, data_poly)] in
  data_eval <- eval_from_poly data_poly ;;
  let out := out ++ [("Data encoded"%string, data_eval)] in
  let data_eval := fold_left (fun e j => set e j (new_complex 0 0)) lost data_eval in
  let out := out ++ [("Data with missing"%string, data_eval)] in
  zero_poly_eval <- eval_from_poly zero_poly ;;
  let out := out ++ [("ZeroPoly eval"%string, zero_poly_eval)] in
  ez_eval <- for4 (fun j ez_eval =>
                     m <- mul (get data_eval j) (get zero_poly_eval j) ;;
                     Ret (set ez_eval j m)) fresh ;;
  let out := out ++ [("EZ eval"%string, ez_eval)] in
  dz_poly <- poly_from_eval ez_eval ;;
  let out := out ++ [("EZ = DZ poly"%string, dz_poly)] in
  dz_poly <- scale dz_poly k ;;
  zero_poly <- scale zero_poly k ;;
  let out := out ++ [("DZ poly scaled"%string, dz_poly)] in
  let out := out ++ [("ZeroPoly scaled"%string, zero_poly)] in
  dz_scaled_eval <- eval_from_poly dz_poly ;;
  zero_scaled_eval <- eval_from_poly zero_poly ;;
  let out := out ++ [("DZ eval scaled"%string, dz_scaled_eval)] in
  let out := out ++ [("Zero eval scaled"%string, zero_scaled_eval)] in
  quotient_eval <- for4 (fun j quotient_eval =>
                           q <- div (get dz_scaled_eval j) (get zero_scaled_eval j) ;;
                           Ret (set quotient_eval j q)) fresh ;;
  let out := out ++ [("Quotient eval"%string, quotient_eval)] in
  recovered_poly <- poly_from_eval quotient_eval ;;
  let out := out ++ [("Scaled recovered"%string, recovered_poly)] in
  recovered_poly <- unscale recovered_poly k ;;
  Ret (out ++ [("Recovered values"%string, recovered_poly)]).

Definition data_poly : poly :=
  A4 (new_complex 5 0) (new_complex 7 0) (new_complex 0 0) (new_complex 0 0).
Definition zero_poly : poly :=
  A4 (new_complex 0 (-1)) (new_complex 1 (-1)) (new_complex 1 0) (new_complex 0 0).

Definition main : outcome report := recover data_poly [J1; J2] zero_poly two.

(** The array printed under a label. *)
Definition printed (s : string) (r : report) : option poly :=
  option_map snd (find (fun l => String.eqb (fst l) s) r).

(** The text that [print_c] writes. The negation of the imaginary part is
    the only arithmetic. *)
Definition print_c (a : complex) : outcome string :=
  let s := dec (re a) in
  if negb (im a =? 0) then
    if im a >? 0 then
      if im a =? 1 then Ret (s ++ " + i")%string
      else Ret (s ++ " + " ++ dec (im a) ++ "i")%string
    else
      if im a =? -1 then Ret (s ++ " - i")%string
      else n <- ineg (im a) ;; Ret (s ++ " - " ++ dec n ++ "i")%string
  else Ret s.

(** The line that [print_poly] writes. *)
Definition print_poly (s : string) (a : poly) : outcome string :=
  c0 <- print_c (at0 a) ;;
  c1 <- print_c (at1 a) ;;
  c2 <- print_c (at2 a) ;;
  c3 <- print_c (at3 a) ;;
  Ret (pad18 s ++ ": [" ++ c0 ++ ", " ++ c1 ++ ", " ++ c2 ++ ", " ++ c3
         ++ "]" ++ newline)%string.

End Complex.

(** * Vocabulary of the properties *)

(** ** The field of residues *)

(** A canonical residue: reduced to [[0, MOD)]. *)
Definition canonical (a : Z) : Prop := 0 <= a < Finite.MOD.

Definition canonical4 (p : Finite.poly) : Prop :=
  canonical (at0 p) /\ canonical (at1 p) /\ canonical (at2 p) /\ canonical (at3 p).

Definition residues : list Z := map Z.of_nat (seq 0 17).

(** The entry of the inverse table for a residue. *)
Definition finv (b : Z) : Z := nth (Z.to_nat b) Finite.inv 0.

(** The elements of an array, in order. *)
Definition elements {A : Type} (a : arr4 A) : list A :=
  [at0 a; at1 a; at2 a; at3 a].

(** Reference transform of the residue field, after the specification:
    output [j] is the sum over [k] of [p[k] * r^(j*k)], with [r = 4],
    taken modulo 17. *)
Definition fdft (p : Finite.poly) (j : nat) : Z :=
  fold_right Z.add 0
    (map (fun k => nth k (elements p) 0 * Finite.i ^ Z.of_nat (j * k)) (seq 0 4))
  mod Finite.MOD.

Definition fdft4 (p : Finite.poly) : Finite.poly :=
  A4 (fdft p 0) (fdft p 1) (fdft p 2) (fdft p 3).

(** ** The Gaussian integers *)

(** Exact arithmetic on pairs of integers: what [add], [sub], [mul] and
    [cconj] of main.c compute when no [int] overflows. *)
Definition gadd (a b : Complex.complex) : Complex.complex :=
  Complex.new_complex (Complex.re a + Complex.re b) (Complex.im a + Complex.im b).

Definition gsub (a b : Complex.complex) : Complex.complex :=
  Complex.new_complex (Complex.re a - Complex.re b) (Complex.im a - Complex.im b).

Definition gmul (a b : Complex.complex) : Complex.complex :=
  Complex.new_complex
    (Complex.re a * Complex.re b - Complex.im a * Complex.im b)
    (Complex.re a * Complex.im b + Complex.im a * Complex.re b).

Definition gconj (a : Complex.complex) : Complex.complex :=
  Complex.new_complex (Complex.re a) (- Complex.im a).

Fixpoint gpow (a : Complex.complex) (n : nat) : Complex.complex :=
  match n with
  | O => Complex.new_complex 1 0
  | S n' => gmul (gpow a n') a
  end.

(** Both parts of a complex integer lie in [[lo, hi]]. *)
Definition between (lo hi : Z) (c : Complex.complex) : Prop :=
  lo <= Complex.re c <= hi /\ lo <= Complex.im c <= hi.

Definition between4 (lo hi : Z) (p : Complex.poly) : Prop :=
  between lo hi (at0 p) /\ between lo hi (at1 p) /\
  between lo hi (at2 p) /\ between lo hi (at3 p).

(** Both parts are at most [B] in absolute value. *)
Definition within (B : Z) (c : Complex.complex) : Prop := between (- B) B c.

(** Reference transform of the complex integers, after the specification:
    output [j] is the sum over [k] of [p[k] * r^(j*k)], with [r = i], in
    exact arithmetic. *)
Definition cdft (p : Complex.poly) (j : nat) : Complex.complex :=
  fold_right gadd Complex.zero
    (map (fun k => gmul (nth k (elements p) Complex.zero) (gpow Complex.i (j * k)))
         (seq 0 4)).

Definition cdft4 (p : Complex.poly) : Complex.poly :=
  A4 (cdft p 0) (cdft p 1) (cdft p 2) (cdft p 3).

(** The round trip through both transforms. *)
Definition fround (p : Finite.poly) : outcome Finite.poly :=
  e <- Finite.eval_from_poly p ;; Finite.poly_from_eval e.

Definition cround (p : Complex.poly) : outcome Complex.poly :=
  e <- Complex.eval_from_poly p ;; Complex.poly_from_eval e.

(** ** Runs of the pipeline *)

(** The polynomial a run prints last, under "Recovered values". *)
Definition frecovered (r : outcome Finite.report) : outcome (option Finite.poly) :=
  r <- r ;; Ret (Finite.printed "Recovered values" r).

Definition crecovered (r : outcome Complex.report) : outcome (option Complex.poly) :=
  r <- r ;; Ret (Complex.printed "Recovered values" r).

(** The product of [(x - r^j)] for the three positions 1, 2 and 3: in both
    domains [x^3 + x^2 + x + 1]. *)
Definition fzero_poly3 : Finite.poly := A4 1 1 1 1.

Definition czero_poly3 : Complex.poly :=
  A4 (Complex.new_complex 1 0) (Complex.new_complex 1 0)
     (Complex.new_complex 1 0) (Complex.new_complex 1 0).

Definition poly_eqb (p q : Finite.poly) : bool :=
  (at0 p =? at0 q) && (at1 p =? at1 q) && (at2 p =? at2 q) && (at3 p =? at3 q).

(** A run on the data [d0, d1] with the positions 1, 2 and 3 lost returns
    [d0 + d1] as its only non-zero coefficient. *)
Definition three_lost_run (d0 d1 : Z) : bool :=
  match frecovered (Finite.recover (A4 d0 d1 0 0) [J1; J2; J3] fzero_poly3 2) with
  | Ret (Some q) => poly_eqb q (A4 ((d0 + d1) mod 17) 0 0 0)
  | _ => false
  end.

(** ** Sums of polynomials *)

(** The coefficient-wise sum, with the [add] of each program. *)
Definition fpadd (p q : Finite.poly) : outcome Finite.poly :=
  s0 <- Finite.add (at0 p) (at0 q) ;;
  s1 <- Finite.add (at1 p) (at1 q) ;;
  s2 <- Finite.add (at2 p) (at2 q) ;;
  s3 <- Finite.add (at3 p) (at3 q) ;;
  Ret (A4 s0 s1 s2 s3).

Definition cpadd (p q : Complex.poly) : outcome Complex.poly :=
  s0 <- Complex.add (at0 p) (at0 q) ;;
  s1 <- Complex.add (at1 p) (at1 q) ;;
  s2 <- Complex.add (at2 p) (at2 q) ;;
  s3 <- Complex.add (at3 p) (at3 q) ;;
  Ret (A4 s0 s1 s2 s3).

(** ** Lost positions and scale factors *)

Definition idx_eqb (a b : idx) : bool :=
  match a, b with
  | J0, J0 | J1, J1 | J2, J2 | J3, J3 => true
  | _, _ => false
  end.

(** The fourth roots of unity modulo 17: the powers of [i = 4]. *)
Definition roots_of_unity : list Z := [1; 4; 16; 13].

(** A scale factor that is neither 0 nor a fourth root of unity. *)
Definition good_scale (k : Z) : bool :=
  negb (k =? 0) && negb (existsb (Z.eqb k) roots_of_unity).

(** The transform of [z] is 0 at the positions [j1] and [j2] and nowhere
    else. *)
Definition vanishes_at (z : Finite.poly) (j1 j2 : idx) : bool :=
  match Finite.eval_from_poly z with
  | Ret e =>
      forallb (fun j => Bool.eqb (get e j =? 0) (idx_eqb j j1 || idx_eqb j j2))
              [J0; J1; J2; J3]
  | _ => false
  end.

(** The pairs of positions, in increasing order. *)
Definition position_pairs : list (idx * idx) :=
  [(J0, J1); (J0, J2); (J0, J3); (J1, J2); (J1, J3); (J2, J3)].

(** A run returns the polynomial [d]. *)
Definition returns_poly (r : outcome Finite.report) (d : Finite.poly) : bool :=
  match frecovered r with
  | Ret (Some q) => poly_eqb q d
  | _ => false
  end.

(** All runs on two lost positions, their monic zero polynomial
    [x^2 + z1 x + z0] and a good scale factor return the data. *)
Definition recovery_check (z0 z1 : Z) (jj : idx * idx) : bool :=
  if vanishes_at (A4 z0 z1 1 0) (fst jj) (snd jj) then
    forallb (fun d0 => forallb (fun d1 => forallb (fun k =>
      if good_scale k
      then returns_poly
             (Finite.recover (A4 d0 d1 0 0) [fst jj; snd jj] (A4 z0 z1 1 0) k)
             (A4 d0 d1 0 0)
      else true) residues) residues) residues
  else true.

(** A run with a fourth root of unity as the scale factor returns, and it
    returns the data only when the data are [0, 0]. *)
Definition root_scale_check (k d0 d1 : Z) : bool :=
  match frecovered (Finite.recover (A4 d0 d1 0 0) [J1; J2] Finite.zero_poly k) with
  | Ret (Some q) => Bool.eqb (poly_eqb q (A4 d0 d1 0 0)) ((d0 =? 0) && (d1 =? 0))
  | _ => false
  end.

Definition zero_scale_check (d0 d1 : Z) : bool :=
  returns_poly (Finite.recover (A4 d0 d1 0 0) [J1; J2] Finite.zero_poly 0)
               (A4 d0 0 0 0).

(** ** Printed text *)

(** The characters that [%d] writes. *)
Definition sign_or_digit (c : ascii) : bool :=
  existsb (Ascii.eqb c)
    ["0"; "1"; "2"; "3"; "4"; "5"; "6"; "7"; "8"; "9"; "-"]%char.

Fixpoint all_numeric (s : string) : bool :=
  match s with
  | EmptyString => true
  | String c r => sign_or_digit c && all_numeric r
  end.

(** The character [c] occurs in [s]. *)
Fixpoint occurs (c : ascii) (s : string) : bool :=
  match s with
  | EmptyString => false
  | String a r => Ascii.eqb a c || occurs c r
  end.

(** What [print_c] writes after the real part. *)
Definition imaginary_text (sgn : ascii) (w : string) : string :=
  String " " (String sgn (String " " (w ++ "i"))).

(** * Properties of the C arithmetic *)

Lemma in_int_iff z : in_int z = true <-> INT_MIN <= z <= INT_MAX.
Proof. unfold in_int. rewrite andb_true_iff, !Z.leb_le. tauto. Qed.

Lemma chk_ok z : INT_MIN <= z <= INT_MAX -> chk z = Ret z.
Proof. intros H. unfold chk. apply in_int_iff in H. now rewrite H. Qed.

Lemma chk_inv z y : chk z = Ret y -> y = z /\ INT_MIN <= z <= INT_MAX.
Proof.
  unfold chk. destruct (in_int z) eqn:E; [|discriminate].
  intros [= <-]. split; [reflexivity | now apply in_int_iff].
Qed.

Lemma bind_inv {A B : Type} (m : outcome A) (f : A -> outcome B) (b : B) :
  bind m f = Ret b -> exists a, m = Ret a /\ f a = Ret b.
Proof. destruct m as [a| |]; cbn; [eauto | discriminate | discriminate]. Qed.

(** A range proof for [chk]. *)
Ltac in_range := unfold INT_MIN, INT_MAX in *; lia.

(** * finite.c *)

Lemma irem17 a : 0 <= a -> irem a 17 = Ret (a mod 17).
Proof.
  intros Ha. unfold irem. cbn [Z.eqb].
  replace (a =? INT_MIN) with false by (symmetry; apply Z.eqb_neq; in_range).
  cbn. now rewrite Z.rem_mod_nonneg by lia.
Qed.

Lemma fadd_spec a b :
  canonical a -> canonical b -> Finite.add a b = Ret ((a + b) mod 17).
Proof.
  unfold canonical, Finite.add, iadd, Finite.MOD; intros.
  rewrite chk_ok by in_range. cbn [bind]. apply irem17; lia.
Qed.

Lemma fneg_spec b : canonical b -> Finite.neg b = Ret (17 - b).
Proof.
  unfold canonical, Finite.neg, isub, Finite.MOD; intros.
  now rewrite chk_ok by in_range.
Qed.

Lemma fsub_spec a b :
  canonical a -> canonical b -> Finite.sub a b = Ret ((a - b) mod 17).
Proof.
  intros Ha Hb. unfold Finite.sub. rewrite (fneg_spec b Hb). cbn [bind].
  unfold canonical, iadd, Finite.MOD in *.
  rewrite chk_ok by in_range. cbn [bind].
  rewrite irem17 by lia. f_equal.
  replace (a + (17 - b)) with ((a - b) + 1 * 17) by lia.
  apply Z.mod_add; lia.
Qed.

Lemma fmul_spec a b :
  canonical a -> canonical b -> Finite.mul a b = Ret ((a * b) mod 17).
Proof.
  unfold canonical, Finite.mul, imul, Finite.MOD; intros.
  rewrite chk_ok by (unfold INT_MIN, INT_MAX; nia). cbn [bind].
  apply irem17; nia.
Qed.

Lemma fequal_spec a b :
  canonical a -> canonical b -> Finite.equal a b = Ret (a =? b).
Proof.
  unfold canonical, Finite.equal, Finite.MOD; intros.
  rewrite !irem17 by lia. cbn [bind].
  now rewrite !Z.mod_small by lia.
Qed.

Lemma mod17_canonical z : canonical (z mod 17).
Proof. unfold canonical, Finite.MOD. apply Z.mod_pos_bound; lia. Qed.

#[local] Hint Resolve mod17_canonical : core.

Lemma canonical_cases b : canonical b -> In b residues.
Proof.
  unfold canonical, Finite.MOD. intros H.
  replace b with (Z.of_nat (Z.to_nat b)) by lia.
  apply in_map, in_seq. lia.
Qed.

(** Case analysis on a residue: one goal for each of the 17 values. *)
Ltac residue_cases b H :=
  let H' := fresh in
  pose proof (canonical_cases b H) as H';
  cbn in H'; repeat (destruct H' as [H'|H']; [subst b|]); [..|contradiction].

Lemma index_inv b : canonical b -> index Finite.inv b = Ret (finv b).
Proof.
  intros H. residue_cases b H; reflexivity.
Qed.

(** [div] on residues: the table entry, then the self-check. *)
Lemma fdiv_unfold a b :
  canonical a -> canonical b ->
  Finite.div a b =
    let ret := (a * finv b) mod 17 in
    if a =? (ret * b) mod 17 then Ret ret else Abort.
Proof.
  intros Ha Hb. unfold Finite.div.
  unfold Finite.MOD. rewrite irem17 by (unfold canonical in Hb; lia).
  cbn [bind]. unfold canonical, Finite.MOD in Hb.
  rewrite (Z.mod_small b 17) by lia.
  rewrite index_inv by exact Hb. cbn [bind].
  assert (Hv : canonical (finv b)) by (residue_cases b Hb; cbv; split; congruence).
  unfold imul. unfold canonical, Finite.MOD in Ha, Hv.
  rewrite chk_ok by (unfold INT_MIN, INT_MAX; nia). cbn [bind].
  rewrite irem17 by nia. cbn [bind].
  rewrite fmul_spec by (auto; exact Hb). cbn [bind].
  rewrite fequal_spec by (auto; exact Ha). cbn [bind].
  cbv zeta. destruct (a =? _); reflexivity.
Qed.

Lemma fdiv_nonzero a b :
  canonical a -> canonical b -> b <> 0 ->
  Finite.div a b = Ret ((a * finv b) mod 17) /\
  ((a * finv b) mod 17 * b) mod 17 = a.
Proof.
  intros Ha Hb Hnz. rewrite fdiv_unfold by assumption. cbv zeta.
  assert (E : ((a * finv b) mod 17 * b) mod 17 = a).
  { unfold canonical, Finite.MOD in Ha.
    residue_cases b Hb; try congruence; cbv [finv Finite.inv nth Z.to_nat Pos.to_nat Pos.iter_op Nat.add];
      Z.div_mod_to_equations; lia. }
  rewrite E, Z.eqb_refl. auto.
Qed.

Lemma fdiv_zero a :
  canonical a -> Finite.div a 0 = if a =? 0 then Ret 0 else Abort.
Proof.
  intros Ha. rewrite fdiv_unfold by (assumption || (cbv; split; congruence)).
  cbv zeta. change (finv 0) with 0. now rewrite !Z.mul_0_r.
Qed.

Lemma fdiv_inv a b q :
  canonical a -> canonical b -> Finite.div a b = Ret q ->
  canonical q /\ (q * b) mod 17 = a.
Proof.
  intros Ha Hb. rewrite fdiv_unfold by assumption. cbv zeta.
  destruct (a =? _) eqn:E; [|discriminate].
  intros [= <-]. split; [auto | symmetry; now apply Z.eqb_eq].
Qed.

Lemma fdiv_mul_cancel a f :
  canonical a -> canonical f -> f <> 0 ->
  Finite.div ((a * f) mod 17) f = Ret a.
Proof.
  intros Ha Hf Hnz.
  destruct (fdiv_nonzero ((a * f) mod 17) f) as [-> _]; auto.
  f_equal. unfold canonical, Finite.MOD in Ha.
  residue_cases f Hf; try congruence; cbv [finv Finite.inv nth Z.to_nat Pos.to_nat Pos.iter_op Nat.add];
    Z.div_mod_to_equations; lia.
Qed.

Lemma Ret_A4_eq {A : Type} (a b c d a' b' c' d' : A) :
  a = a' -> b = b' -> c = c' -> d = d' -> Ret (A4 a b c d) = Ret (A4 a' b' c' d').
Proof. now intros -> -> -> ->. Qed.

Lemma canonical_i : canonical Finite.i.
Proof. cbv; split; congruence. Qed.
Lemma canonical_4 : canonical 4.
Proof. cbv; split; congruence. Qed.
#[local] Hint Resolve canonical_i canonical_4 : core.

Ltac fstep :=
  first [ rewrite fadd_spec by auto
        | rewrite fsub_spec by auto
        | rewrite fmul_spec by auto ];
  cbn [bind].

Lemma feval_spec p :
  canonical4 p ->
  Finite.eval_from_poly p =
    Ret (A4 (((at0 p + at2 p) mod 17 + (at1 p + at3 p) mod 17) mod 17)
            (((at0 p - at2 p) mod 17 + (4 * ((at1 p - at3 p) mod 17)) mod 17) mod 17)
            (((at0 p + at2 p) mod 17 - (at1 p + at3 p) mod 17) mod 17)
            (((at0 p - at2 p) mod 17 - (4 * ((at1 p - at3 p) mod 17)) mod 17) mod 17)).
Proof.
  intros (H0 & H1 & H2 & H3). unfold Finite.eval_from_poly.
  repeat fstep. reflexivity.
Qed.

Lemma fdiv4 a : canonical a -> Finite.div a 4 = Ret ((a * 13) mod 17).
Proof.
  intros Ha. now destruct (fdiv_nonzero a 4) as [-> _]; auto.
Qed.

Lemma fpoly_spec e :
  canonical4 e ->
  Finite.poly_from_eval e =
    Ret (A4 ((((at0 e + at2 e) mod 17 + (at1 e + at3 e) mod 17) mod 17 * 13) mod 17)
            ((((at0 e - at2 e) mod 17 - (4 * ((at1 e - at3 e) mod 17)) mod 17) mod 17 * 13) mod 17)
            ((((at0 e + at2 e) mod 17 - (at1 e + at3 e) mod 17) mod 17 * 13) mod 17)
            ((((at0 e - at2 e) mod 17 + (4 * ((at1 e - at3 e) mod 17)) mod 17) mod 17 * 13) mod 17)).
Proof.
  intros (H0 & H1 & H2 & H3). unfold Finite.poly_from_eval.
  repeat fstep. unfold for4. cbn [get set at0 at1 at2 at3].
  repeat (rewrite fdiv4 by auto; cbn [bind get set at0 at1 at2 at3]).
  reflexivity.
Qed.

Lemma fround_trip p :
  canonical4 p ->
  fround p = Ret p.
Proof.
  intros Hp. unfold fround. rewrite feval_spec by assumption. cbn [bind].
  rewrite fpoly_spec by (unfold canonical4; cbn [at0 at1 at2 at3]; auto 6).
  cbn [at0 at1 at2 at3]. destruct p as [p0 p1 p2 p3].
  destruct Hp as (H0 & H1 & H2 & H3). unfold canonical, Finite.MOD in *.
  cbn [at0 at1 at2 at3] in *.
  apply Ret_A4_eq; Z.div_mod_to_equations; lia.
Qed.

Lemma fdft_spec p : canonical4 p -> Finite.eval_from_poly p = Ret (fdft4 p).
Proof.
  intros Hp. rewrite feval_spec by assumption.
  destruct p as [p0 p1 p2 p3].
  destruct Hp as (H0 & H1 & H2 & H3). unfold canonical, Finite.MOD in *.
  cbn [at0 at1 at2 at3] in *.
  unfold fdft4, fdft. cbn [seq map fold_right elements nth at0 at1 at2 at3 Nat.mul Nat.add].
  unfold Finite.i, Finite.MOD.
  cbn [Z.of_nat Pos.of_succ_nat Pos.succ Z.pow Z.pow_pos Pos.iter Pos.add].
  apply Ret_A4_eq; Z.div_mod_to_equations; lia.
Qed.

(** Products of non-zero residues are non-zero: 17 is prime. *)
Lemma fmul_nonzero a b :
  canonical a -> canonical b -> a <> 0 -> b <> 0 -> (a * b) mod 17 <> 0.
Proof.
  intros Ha Hb Hna Hnb. unfold canonical, Finite.MOD in Hb.
  residue_cases a Ha; try congruence; Z.div_mod_to_equations; lia.
Qed.

Lemma fscale_spec p k :
  canonical4 p -> canonical k ->
  Finite.scale p k =
    Ret (A4 (at0 p)
            ((at1 p * k) mod 17)
            ((at2 p * ((k * k) mod 17)) mod 17)
            ((at3 p * (((k * k) mod 17 * k) mod 17)) mod 17)).
Proof.
  intros (H0 & H1 & H2 & H3) Hk. unfold Finite.scale.
  cbv zeta. cbn [set at0 at1 at2 at3].
  repeat fstep. reflexivity.
Qed.

Lemma funscale_scale p k :
  canonical4 p -> canonical k -> k <> 0 ->
  (q <- Finite.scale p k ;; Finite.unscale q k) = Ret p.
Proof.
  intros Hp Hk Hnz. rewrite fscale_spec by assumption. cbn [bind].
  destruct Hp as (H0 & H1 & H2 & H3). destruct p as [p0 p1 p2 p3].
  cbn [at0 at1 at2 at3] in *.
  unfold Finite.unscale. cbv zeta. cbn [set at0 at1 at2 at3].
  assert (Hk2 : (k * k) mod 17 <> 0) by now apply fmul_nonzero.
  assert (Hk3 : ((k * k) mod 17 * k) mod 17 <> 0) by (apply fmul_nonzero; auto).
  rewrite fdiv_mul_cancel by auto. cbn [bind]. fstep.
  rewrite fdiv_mul_cancel by auto. cbn [bind]. fstep.
  rewrite fdiv_mul_cancel by auto. reflexivity.
Qed.

(** Reduction of the iterated factor to a power. *)
Lemma mod17_pow2 a k : (a * ((k * k) mod 17)) mod 17 = (a * k ^ 2) mod 17.
Proof.
  rewrite Z.mul_mod_idemp_r by lia. f_equal. lia.
Qed.

Lemma mod17_pow3 a k :
  (a * (((k * k) mod 17 * k) mod 17)) mod 17 = (a * k ^ 3) mod 17.
Proof.
  rewrite Z.mul_mod_idemp_r by lia.
  rewrite (Z.mul_comm ((k * k) mod 17) k), Z.mul_assoc.
  rewrite Z.mul_mod_idemp_r by lia. f_equal. lia.
Qed.

Lemma funscale_inv p k q :
  canonical4 p -> canonical k -> Finite.unscale p k = Ret q ->
  canonical4 q /\ at0 q = at0 p /\
  (at1 q * k) mod 17 = at1 p /\
  (at2 q * k ^ 2) mod 17 = at2 p /\
  (at3 q * k ^ 3) mod 17 = at3 p.
Proof.
  intros (H0 & H1 & H2 & H3) Hk. unfold Finite.unscale.
  cbv zeta. cbn [set at0 at1 at2 at3]. intros H.
  apply bind_inv in H as (a1 & E1 & H).
  rewrite fmul_spec in H by auto. cbn [bind] in H.
  apply bind_inv in H as (a2 & E2 & H).
  rewrite fmul_spec in H by auto. cbn [bind] in H.
  apply bind_inv in H as (a3 & E3 & H).
  injection H as <-. cbn [at0 at1 at2 at3].
  apply fdiv_inv in E1 as (C1 & E1); auto.
  apply fdiv_inv in E2 as (C2 & E2); auto.
  apply fdiv_inv in E3 as (C3 & E3); auto.
  rewrite <- mod17_pow2, <- mod17_pow3.
  unfold canonical4; cbn [at0 at1 at2 at3]. auto 10.
Qed.

Lemma funscale_total p k :
  canonical4 p -> canonical k -> k <> 0 ->
  exists q, Finite.unscale p k = Ret q.
Proof.
  intros (H0 & H1 & H2 & H3) Hk Hnz. unfold Finite.unscale.
  cbv zeta. cbn [set at0 at1 at2 at3].
  assert (Hk2 : (k * k) mod 17 <> 0) by now apply fmul_nonzero.
  assert (Hk3 : ((k * k) mod 17 * k) mod 17 <> 0) by (apply fmul_nonzero; auto).
  destruct (fdiv_nonzero (at1 p) k) as [-> _]; auto. cbn [bind]. fstep.
  destruct (fdiv_nonzero (at2 p) ((k * k) mod 17)) as [-> _]; auto.
  cbn [bind]. fstep.
  destruct (fdiv_nonzero (at3 p) (((k * k) mod 17 * k) mod 17)) as [-> _]; auto.
  cbn [bind]. eauto.
Qed.

(** * main.c *)

Import Complex.

Lemma complex_eq (a b : complex) : re a = re b -> im a = im b -> a = b.
Proof. destruct a, b; cbn; now intros -> ->. Qed.

Lemma cequal_iff a b : equal a b = true <-> a = b.
Proof.
  unfold equal. rewrite andb_true_iff, !Z.eqb_eq. split.
  - intros [? ?]. now apply complex_eq.
  - now intros ->.
Qed.

(** What a call returns, when it returns. *)
Lemma cadd_inv a b c : add a b = Ret c ->
  c = gadd a b /\ between INT_MIN INT_MAX c.
Proof.
  unfold add, iadd. intros H.
  apply bind_inv in H as (r & Hr & H). apply bind_inv in H as (m & Hm & H).
  apply chk_inv in Hr as (-> & ?). apply chk_inv in Hm as (-> & ?).
  injection H as <-. split; [reflexivity | split; assumption].
Qed.

Lemma csub_inv a b c : sub a b = Ret c ->
  c = gsub a b /\ between INT_MIN INT_MAX c.
Proof.
  unfold sub, isub. intros H.
  apply bind_inv in H as (r & Hr & H). apply bind_inv in H as (m & Hm & H).
  apply chk_inv in Hr as (-> & ?). apply chk_inv in Hm as (-> & ?).
  injection H as <-. split; [reflexivity | split; assumption].
Qed.

Lemma cmul_inv a b c : mul a b = Ret c ->
  c = gmul a b /\ between INT_MIN INT_MAX c /\
  INT_MIN <= re a * re b <= INT_MAX /\ INT_MIN <= im a * im b <= INT_MAX /\
  INT_MIN <= re a * im b <= INT_MAX /\ INT_MIN <= im a * re b <= INT_MAX.
Proof.
  unfold mul, imul, isub, iadd. intros H.
  apply bind_inv in H as (rr & Hrr & H). apply bind_inv in H as (ii & Hii & H).
  apply bind_inv in H as (r & Hr & H). apply bind_inv in H as (ri & Hri & H).
  apply bind_inv in H as (ir & Hir & H). apply bind_inv in H as (m & Hm & H).
  apply chk_inv in Hrr as (-> & ?). apply chk_inv in Hii as (-> & ?).
  apply chk_inv in Hr as (-> & ?). apply chk_inv in Hri as (-> & ?).
  apply chk_inv in Hir as (-> & ?). apply chk_inv in Hm as (-> & ?).
  injection H as <-. unfold between, gmul; cbn [re im]. auto 10.
Qed.

Lemma abs_mul_le x y X Y :
  - X <= x <= X -> - Y <= y <= Y -> - (X * Y) <= x * y <= X * Y.
Proof. intros. nia. Qed.

Lemma cmul_ok a b A B :
  within A a -> within B b -> 2 * (A * B) <= INT_MAX ->
  mul a b = Ret (gmul a b) /\ within (2 * (A * B)) (gmul a b).
Proof.
  unfold within, between. intros [Har Hai] [Hbr Hbi] HAB.
  pose proof (abs_mul_le _ _ _ _ Har Hbr).
  pose proof (abs_mul_le _ _ _ _ Hai Hbi).
  pose proof (abs_mul_le _ _ _ _ Har Hbi).
  pose proof (abs_mul_le _ _ _ _ Hai Hbr).
  unfold mul, imul, isub, iadd, gmul. cbn [re im].
  rewrite !chk_ok by in_range. cbn [bind].
  rewrite !chk_ok by in_range. cbn [bind].
  split; [reflexivity | lia].
Qed.

Lemma cconj_ok a : INT_MIN < im a <= INT_MAX -> cconj a = Ret (gconj a).
Proof.
  intros H. unfold cconj, ineg. now rewrite chk_ok by in_range.
Qed.

Lemma cconj_inv a c : cconj a = Ret c -> c = gconj a.
Proof.
  unfold cconj, ineg. intros H. apply bind_inv in H as (n & Hn & H).
  apply chk_inv in Hn as (-> & _). now injection H as <-.
Qed.

(** [div] returns only an exact quotient, and never for a zero divisor. *)
Lemma cdiv_inv a b q : div a b = Ret q -> gmul q b = a /\ b <> zero.
Proof.
  unfold div. intros H.
  apply bind_inv in H as (bc & Hbc & H). apply bind_inv in H as (ab & Hab & H).
  apply bind_inv in H as (bb & Hbb & H). apply bind_inv in H as (qr & Hqr & H).
  apply bind_inv in H as (qi & Hqi & H). cbv zeta in H.
  apply bind_inv in H as (m & Hm & H). apply bind_inv in H as (u & Hu & H).
  injection H as <-. split.
  - apply cmul_inv in Hm as (-> & _).
    unfold assert in Hu. destruct (equal a _) eqn:E; [|discriminate].
    symmetry. now apply cequal_iff.
  - intros ->. apply cconj_inv in Hbc as ->.
    apply cmul_inv in Hbb as (-> & _).
    unfold idiv in Hqr. cbn in Hqr. discriminate.
Qed.

(** [div] multiplies both parts of the dividend by the real part of the
    divisor. *)
Lemma cdiv_range a b q :
  div a b = Ret q ->
  INT_MIN <= re a * re b <= INT_MAX /\ INT_MIN <= im a * re b <= INT_MAX.
Proof.
  unfold div. intros H.
  apply bind_inv in H as (bc & Hbc & H). apply bind_inv in H as (ab & Hab & _).
  apply cconj_inv in Hbc as ->.
  apply cmul_inv in Hab as (_ & _ & Hrr & _ & _ & Hir).
  cbn [gconj re im] in *. auto.
Qed.

Lemma cdiv_zero a : div a zero = Undef.
Proof.
  unfold div, cconj, ineg, zero. cbn [re im Z.opp].
  rewrite chk_ok by in_range. cbn [bind].
  unfold mul at 1. unfold imul, isub, iadd. cbn [re im].
  rewrite !Z.mul_0_r. cbn [Z.sub Z.add Z.opp].
  rewrite !chk_ok by in_range. cbn [bind re im].
  reflexivity.
Qed.

Lemma gpow_i_values :
  gpow i 0 = new_complex 1 0 /\ gpow i 1 = i /\
  gpow i 2 = new_complex (-1) 0 /\ gpow i 3 = new_complex 0 (-1) /\
  gpow i 4 = new_complex 1 0 /\ gpow i 6 = new_complex (-1) 0 /\
  gpow i 9 = i.
Proof. repeat split; reflexivity. Qed.

(** The reference transform, written out. *)
Lemma cdft4_unfold p :
  cdft4 p =
    A4 (gadd (gadd (at0 p) (at2 p)) (gadd (at1 p) (at3 p)))
       (gadd (gsub (at0 p) (at2 p)) (gmul i (gsub (at1 p) (at3 p))))
       (gsub (gadd (at0 p) (at2 p)) (gadd (at1 p) (at3 p)))
       (gsub (gsub (at0 p) (at2 p)) (gmul i (gsub (at1 p) (at3 p)))).
Proof.
  destruct gpow_i_values as (E0 & E1 & E2 & E3 & E4 & E6 & E9).
  unfold cdft4, cdft.
  cbn [seq map fold_right elements nth Nat.mul Nat.add].
  rewrite E0, E1, E2, E3, E4, E6, E9.
  destruct p as [[a0 b0] [a1 b1] [a2 b2] [a3 b3]].
  unfold gadd, gsub, gmul, i, zero; cbn [re im at0 at1 at2 at3].
  f_equal; apply complex_eq; cbn [re im]; lia.
Qed.

(** Unfolds the arithmetic of main.c down to the range checks. *)
Ltac c_unfold :=
  unfold add, sub, mul, cconj, iadd, isub, imul, ineg, i, four;
  cbn [re im bind].

(** Discharges the range checks from the bounds in the context. *)
Ltac c_run := repeat (rewrite chk_ok by in_range; cbn [bind re im]).

Lemma ceval_ok p :
  between4 (-536870912) 536870911 p ->
  eval_from_poly p = Ret (cdft4 p).
Proof.
  rewrite cdft4_unfold.
  destruct p as [[a0 b0] [a1 b1] [a2 b2] [a3 b3]].
  unfold between4, between; cbn [re im at0 at1 at2 at3].
  intros (H0 & H1 & H2 & H3).
  unfold eval_from_poly; cbn [at0 at1 at2 at3]. c_unfold. c_run.
  unfold gadd, gsub, gmul, i; cbn [re im]. reflexivity.
Qed.

(** Inverts one call of a sequence that returned. *)
Ltac c_inv H :=
  let x := fresh "x" in
  let Hx := fresh "Hx" in
  apply bind_inv in H as (x & Hx & H);
  first [ apply cadd_inv in Hx as (-> & _)
        | apply csub_inv in Hx as (-> & _)
        | apply cmul_inv in Hx as (-> & _) ].

Lemma ceval_inv p e : eval_from_poly p = Ret e -> e = cdft4 p.
Proof.
  rewrite cdft4_unfold. unfold eval_from_poly. intros H.
  do 10 c_inv H. now injection H as <-.
Qed.

Lemma ceval_range p e :
  eval_from_poly p = Ret e -> between4 INT_MIN INT_MAX e.
Proof.
  unfold eval_from_poly. intros H. do 4 c_inv H.
  apply bind_inv in H as (e0 & He0 & H). c_inv H.
  apply bind_inv in H as (e1 & He1 & H).
  apply bind_inv in H as (e2 & He2 & H). c_inv H.
  apply bind_inv in H as (e3 & He3 & H). injection H as <-.
  apply cadd_inv in He0 as (_ & R0). apply cadd_inv in He1 as (_ & R1).
  apply csub_inv in He2 as (_ & R2). apply csub_inv in He3 as (_ & R3).
  unfold between4; cbn [at0 at1 at2 at3]. auto.
Qed.

Lemma cdiv_four a x y :
  re a = 4 * x -> im a = 4 * y ->
  -134217728 <= x <= 134217727 -> -134217728 <= y <= 134217727 ->
  div a four = Ret (new_complex x y).
Proof.
  destruct a as [ar ai]; cbn [re im]. intros -> -> Hx Hy.
  unfold div. c_unfold. c_run.
  unfold idiv.
  change (4 * 4 - 0 * - 0 =? 0) with false. cbv iota.
  replace (4 * x * 4 - 4 * y * - 0) with (x * 16) by lia.
  replace (4 * x * - 0 + 4 * y * 4) with (y * 16) by lia.
  change (4 * 4 - 0 * - 0) with 16.
  rewrite !Z.quot_mul by lia. c_run.
  unfold equal; cbn [re im].
  replace (x * 4 - y * 0) with (4 * x) by lia.
  replace (x * 0 + y * 4) with (4 * y) by lia.
  now rewrite !Z.eqb_refl.
Qed.

Lemma cinverse_ok c :
  between4 (-134217728) 134217727 c ->
  poly_from_eval (cdft4 c) = Ret c.
Proof.
  rewrite cdft4_unfold.
  destruct c as [[a0 b0] [a1 b1] [a2 b2] [a3 b3]].
  unfold between4, between; cbn [re im at0 at1 at2 at3].
  intros (H0 & H1 & H2 & H3).
  unfold gadd, gsub, gmul, i; cbn [re im].
  unfold poly_from_eval; cbn [at0 at1 at2 at3]. c_unfold. c_run.
  unfold for4; cbn [get set at0 at1 at2 at3].
  rewrite (cdiv_four _ a0 b0) by (cbn [re im]; lia).
  cbn [bind get set at0 at1 at2 at3].
  rewrite (cdiv_four _ a1 b1) by (cbn [re im]; lia).
  cbn [bind get set at0 at1 at2 at3].
  rewrite (cdiv_four _ a2 b2) by (cbn [re im]; lia).
  cbn [bind get set at0 at1 at2 at3].
  rewrite (cdiv_four _ a3 b3) by (cbn [re im]; lia).
  reflexivity.
Qed.

Lemma cround_ok p :
  between4 (-134217728) 134217727 p -> cround p = Ret p.
Proof.
  intros Hp. unfold cround. rewrite ceval_ok.
  - cbn [bind]. now apply cinverse_ok.
  - unfold between4, between in *. lia.
Qed.

Lemma gmul_four q a :
  gmul q four = a -> re a = 4 * re q /\ im a = 4 * im q.
Proof. intros <-. unfold gmul, four; cbn [re im]. lia. Qed.

Lemma cround_inv p q : cround p = Ret q -> q = p.
Proof.
  unfold cround. intros H. apply bind_inv in H as (e & He & H).
  apply ceval_inv in He as ->. rewrite cdft4_unfold in H.
  unfold poly_from_eval in H. cbn [at0 at1 at2 at3] in H.
  do 10 c_inv H.
  unfold for4 in H; cbn [get set at0 at1 at2 at3] in H.
  apply bind_inv in H as (s0 & Hs0 & H).
  apply bind_inv in Hs0 as (q0 & Hq0 & Hs0). injection Hs0 as <-.
  cbn [get set at0 at1 at2 at3] in H.
  apply bind_inv in H as (s1 & Hs1 & H).
  apply bind_inv in Hs1 as (q1 & Hq1 & Hs1). injection Hs1 as <-.
  cbn [get set at0 at1 at2 at3] in H.
  apply bind_inv in H as (s2 & Hs2 & H).
  apply bind_inv in Hs2 as (q2 & Hq2 & Hs2). injection Hs2 as <-.
  cbn [get set at0 at1 at2 at3] in H.
  apply bind_inv in H as (q3 & Hq3 & H). injection H as <-.
  apply cdiv_inv in Hq0 as (Hq0 & _). apply cdiv_inv in Hq1 as (Hq1 & _).
  apply cdiv_inv in Hq2 as (Hq2 & _). apply cdiv_inv in Hq3 as (Hq3 & _).
  apply gmul_four in Hq0 as (? & ?). apply gmul_four in Hq1 as (? & ?).
  apply gmul_four in Hq2 as (? & ?). apply gmul_four in Hq3 as (? & ?).
  destruct p as [[a0 b0] [a1 b1] [a2 b2] [a3 b3]].
  destruct q0 as [u0 v0], q1 as [u1 v1], q2 as [u2 v2], q3 as [u3 v3].
  unfold gadd, gsub, gmul, i in *; cbn [re im at0 at1 at2 at3] in *.
  f_equal; apply complex_eq; cbn [re im]; lia.
Qed.

(** The round trip returns only for parts in [[-2^27, 2^27 - 1]]. *)
Lemma cround_range p q :
  cround p = Ret q -> between4 (-134217728) 134217727 p.
Proof.
  unfold cround. intros H. apply bind_inv in H as (e & He & H).
  apply ceval_inv in He as ->. rewrite cdft4_unfold in H.
  unfold poly_from_eval in H. cbn [at0 at1 at2 at3] in H.
  do 10 c_inv H.
  unfold for4 in H; cbn [get set at0 at1 at2 at3] in H.
  apply bind_inv in H as (s0 & Hs0 & H).
  apply bind_inv in Hs0 as (q0 & Hq0 & Hs0). injection Hs0 as <-.
  cbn [get set at0 at1 at2 at3] in H.
  apply bind_inv in H as (s1 & Hs1 & H).
  apply bind_inv in Hs1 as (q1 & Hq1 & Hs1). injection Hs1 as <-.
  cbn [get set at0 at1 at2 at3] in H.
  apply bind_inv in H as (s2 & Hs2 & H).
  apply bind_inv in Hs2 as (q2 & Hq2 & Hs2). injection Hs2 as <-.
  cbn [get set at0 at1 at2 at3] in H.
  apply bind_inv in H as (q3 & Hq3 & _).
  apply cdiv_range in Hq0, Hq1, Hq2, Hq3.
  destruct p as [[a0 b0] [a1 b1] [a2 b2] [a3 b3]].
  unfold gadd, gsub, gmul, i, four in *; cbn [re im at0 at1 at2 at3] in *.
  unfold between4, between; cbn [re im at0 at1 at2 at3].
  unfold INT_MIN, INT_MAX in *. lia.
Qed.

Lemma nonzero_norm b : b <> zero -> 0 < re b * re b + im b * im b.
Proof.
  intros Hb. destruct b as [x y]; cbn [re im].
  assert (x <> 0 \/ y <> 0) as [H|H].
  { destruct (Z.eq_dec x 0) as [->|]; [|now left].
    destruct (Z.eq_dec y 0) as [->|]; [|now right].
    now contradiction Hb. }
  all: nia.
Qed.

Lemma gmul_nonzero a b : a <> zero -> b <> zero -> gmul a b <> zero.
Proof.
  intros Ha Hb E.
  apply nonzero_norm in Ha, Hb.
  unfold gmul, zero in E. injection E as E1 E2.
  assert (N : (re a * re a + im a * im a) * (re b * re b + im b * im b) = 0).
  { transitivity ((re a * re b - im a * im b) * (re a * re b - im a * im b)
                  + (re a * im b + im a * re b) * (re a * im b + im a * re b)).
    - ring.
    - rewrite E1, E2. reflexivity. }
  apply Z.eq_mul_0 in N. lia.
Qed.

(** [div] returns the exact quotient of a product by its factor when the
    intermediate products fit. *)
Lemma cdiv_ok q b Q F :
  1 <= Q -> within Q q -> within F b -> b <> zero ->
  4 * (Q * (F * F)) <= INT_MAX ->
  div (gmul q b) b = Ret q.
Proof.
  intros HQ Hq Hb Hnz Hfit.
  pose proof (nonzero_norm b Hnz) as HN.
  assert (HF : 1 <= F).
  { destruct Hb as [? ?]. destruct (Z_le_gt_dec 1 F); [assumption|]. nia. }
  assert (HFF : F <= F * F) by nia.
  assert (HQF : Q * F <= Q * (F * F)) by nia.
  assert (HQFF : F * F <= Q * (F * F)) by nia.
  assert (HQQ : Q <= Q * F) by nia.
  destruct (cmul_ok q b Q F Hq Hb) as [Eqb Wqb]; [lia|].
  assert (Wbc : within F (gconj b)).
  { destruct Hb as [? ?]. unfold within, between, gconj; cbn [re im]. lia. }
  destruct (cmul_ok (gmul q b) (gconj b) _ F Wqb Wbc) as [Eab _].
  { replace (2 * (Q * F) * F) with (2 * (Q * (F * F))) by ring. lia. }
  destruct (cmul_ok b (gconj b) F F Hb Wbc) as [Ebb _]; [lia|].
  unfold div.
  rewrite cconj_ok by (destruct Hb as [_ ?]; in_range). cbn [bind].
  rewrite Eab, Ebb. cbn [bind].
  assert (ER : re (gmul (gmul q b) (gconj b))
               = re q * (re b * re b + im b * im b))
    by (unfold gmul, gconj; cbn [re im]; ring).
  assert (EI : im (gmul (gmul q b) (gconj b))
               = im q * (re b * re b + im b * im b))
    by (unfold gmul, gconj; cbn [re im]; ring).
  assert (EN : re (gmul b (gconj b)) = re b * re b + im b * im b)
    by (unfold gmul, gconj; cbn [re im]; ring).
  rewrite ER, EI, EN. unfold idiv.
  replace (re b * re b + im b * im b =? 0) with false
    by (symmetry; apply Z.eqb_neq; lia).
  rewrite !Z.quot_mul by lia.
  destruct Hq as [? ?].
  rewrite !chk_ok by in_range. cbn [bind].
  destruct q as [x y]; cbn [re im] in *.
  rewrite Eqb. cbn [bind].
  replace (equal _ _) with true by (symmetry; now apply cequal_iff).
  reflexivity.
Qed.

Lemma nonzero_bound k K : k <> zero -> within K k -> 1 <= K.
Proof.
  intros Hk [? ?]. apply nonzero_norm in Hk.
  destruct (Z_le_gt_dec 1 K); [assumption | nia].
Qed.

(** Everything the scaling computes is below [64 * P * K^6]. *)
Lemma scale_bounds P K n :
  1 <= P -> 1 <= K -> (n <= 6)%nat ->
  K ^ Z.of_nat n <= P * K ^ 6 /\ P * K ^ Z.of_nat n <= P * K ^ 6.
Proof.
  intros HP HK Hn.
  assert (H1 : K ^ Z.of_nat n <= K ^ 6) by (apply Z.pow_le_mono_r; lia).
  assert (H2 : 0 < K ^ Z.of_nat n) by (apply Z.pow_pos_nonneg; lia).
  split; nia.
Qed.

Section Scaling.

Variables (p : poly) (k : complex) (P K : Z).
Hypothesis HP : 1 <= P.
Hypothesis Hk : within K k.
Hypothesis Hnz : k <> zero.
Hypothesis H1 : within P (at1 p).
Hypothesis H2 : within P (at2 p).
Hypothesis H3 : within P (at3 p).
Hypothesis Hfit : 64 * (P * K ^ 6) <= INT_MAX.

Lemma scale_K : 1 <= K.
Proof. exact (nonzero_bound k K Hnz Hk). Qed.

Lemma scale_fits :
  2 * (P * K) <= INT_MAX /\ 2 * (K * K) <= INT_MAX /\
  2 * (P * (2 * (K * K))) <= INT_MAX /\ 2 * (2 * (K * K) * K) <= INT_MAX /\
  2 * (P * (2 * (2 * (K * K) * K))) <= INT_MAX /\
  4 * (P * (K * K)) <= INT_MAX /\
  4 * (P * (2 * (K * K) * (2 * (K * K)))) <= INT_MAX /\
  4 * (P * (2 * (2 * (K * K) * K) * (2 * (2 * (K * K) * K)))) <= INT_MAX.
Proof.
  pose proof scale_K as HK.
  pose proof (scale_bounds P K 1 HP HK ltac:(lia)) as [A1 B1].
  pose proof (scale_bounds P K 2 HP HK ltac:(lia)) as [A2 B2].
  pose proof (scale_bounds P K 3 HP HK ltac:(lia)) as [A3 B3].
  pose proof (scale_bounds P K 4 HP HK ltac:(lia)) as [A4' B4].
  cbn [Z.of_nat Pos.of_succ_nat Pos.succ] in *.
  assert (0 < P * K ^ 6) by (pose proof (Z.pow_pos_nonneg K 6); nia).
  repeat split; lia.
Qed.

Lemma cfac2 : mul k k = Ret (gmul k k) /\ within (2 * (K * K)) (gmul k k).
Proof. apply cmul_ok; auto. apply scale_fits. Qed.

Lemma cfac3 :
  mul (gmul k k) k = Ret (gmul (gmul k k) k) /\
  within (2 * (2 * (K * K) * K)) (gmul (gmul k k) k).
Proof. apply cmul_ok; auto; [apply cfac2 | apply scale_fits]. Qed.

Lemma cscale_ok :
  scale p k =
    Ret (A4 (at0 p) (gmul (at1 p) k) (gmul (at2 p) (gmul k k))
            (gmul (at3 p) (gmul (gmul k k) k))).
Proof.
  pose proof scale_fits as (F1 & F2 & F3 & F4 & F5 & _).
  destruct cfac2 as [E2 W2]. destruct cfac3 as [E3 W3].
  unfold scale. cbv zeta. cbn [set at0 at1 at2 at3].
  destruct (cmul_ok (at1 p) k P K) as [-> _]; auto. cbn [bind].
  rewrite E2. cbn [bind].
  destruct (cmul_ok (at2 p) (gmul k k) P _ H2 W2) as [-> _]; auto. cbn [bind].
  rewrite E3. cbn [bind].
  destruct (cmul_ok (at3 p) (gmul (gmul k k) k) P _ H3 W3) as [-> _]; auto.
Qed.

Lemma cunscale_scale : (q <- scale p k ;; unscale q k) = Ret p.
Proof.
  pose proof scale_fits as (_ & _ & _ & _ & _ & F6 & F7 & F8).
  destruct cfac2 as [E2 W2]. destruct cfac3 as [E3 W3].
  rewrite cscale_ok. cbn [bind].
  unfold unscale. cbv zeta. cbn [set at0 at1 at2 at3].
  rewrite (cdiv_ok (at1 p) k P K) by auto. cbn [bind].
  rewrite E2. cbn [bind].
  rewrite (cdiv_ok (at2 p) (gmul k k) P _ HP H2 W2)
    by (auto using gmul_nonzero).
  cbn [bind]. rewrite E3. cbn [bind].
  rewrite (cdiv_ok (at3 p) (gmul (gmul k k) k) P _ HP H3 W3)
    by (auto using gmul_nonzero).
  cbn [bind]. now destruct p.
Qed.

End Scaling.

Lemma gpow_1 k : gpow k 1 = k.
Proof. destruct k. unfold gpow, gmul; cbn [re im]. f_equal; lia. Qed.

Lemma gpow_2 k : gpow k 2 = gmul k k.
Proof. change (gpow k 2) with (gmul (gpow k 1) k). now rewrite gpow_1. Qed.

Lemma gpow_3 k : gpow k 3 = gmul (gmul k k) k.
Proof. change (gpow k 3) with (gmul (gpow k 2) k). now rewrite gpow_2. Qed.

Lemma cscale_inv p k q :
  scale p k = Ret q ->
  at0 q = at0 p /\ at1 q = gmul (at1 p) (gpow k 1) /\
  at2 q = gmul (at2 p) (gpow k 2) /\ at3 q = gmul (at3 p) (gpow k 3).
Proof.
  rewrite gpow_1, gpow_2, gpow_3. unfold scale. cbv zeta.
  cbn [set at0 at1 at2 at3]. intros H.
  do 5 c_inv H. injection H as <-. cbn [at0 at1 at2 at3]. auto.
Qed.

Lemma cunscale_inv p k q :
  unscale p k = Ret q ->
  at0 q = at0 p /\ gmul (at1 q) (gpow k 1) = at1 p /\
  gmul (at2 q) (gpow k 2) = at2 p /\ gmul (at3 q) (gpow k 3) = at3 p.
Proof.
  rewrite gpow_1, gpow_2, gpow_3. unfold unscale. cbv zeta.
  cbn [set at0 at1 at2 at3]. intros H.
  apply bind_inv in H as (q1 & Hq1 & H). c_inv H.
  apply bind_inv in H as (q2 & Hq2 & H). c_inv H.
  apply bind_inv in H as (q3 & Hq3 & H). injection H as <-.
  apply cdiv_inv in Hq1 as (Hq1 & _). apply cdiv_inv in Hq2 as (Hq2 & _).
  apply cdiv_inv in Hq3 as (Hq3 & _). cbn [at0 at1 at2 at3]. auto.
Qed.

Lemma cdiv_mul a b q : div a b = Ret q -> mul q b = Ret a.
Proof.
  unfold div. intros H.
  apply bind_inv in H as (bc & Hbc & H). apply bind_inv in H as (ab & Hab & H).
  apply bind_inv in H as (bb & Hbb & H). apply bind_inv in H as (qr & Hqr & H).
  apply bind_inv in H as (qi & Hqi & H). cbv zeta in H.
  apply bind_inv in H as (m & Hm & H). apply bind_inv in H as (u & Hu & H).
  injection H as <-. rewrite Hm. f_equal.
  unfold assert in Hu. destruct (equal a m) eqn:E; [|discriminate].
  symmetry. now apply cequal_iff.
Qed.

Lemma complex_eq_dec_zero a : a = zero \/ a <> zero.
Proof.
  destruct a as [x y]. destruct (Z.eq_dec x 0) as [->|Hx].
  - destruct (Z.eq_dec y 0) as [->|Hy]; [now left | right].
    intros [= E]. contradiction.
  - right. intros [= E _]. contradiction.
Qed.

Lemma gmul_cancel_r a b f : f <> zero -> gmul a f = gmul b f -> a = b.
Proof.
  intros Hf E.
  assert (Z0 : gmul (gsub a b) f = zero).
  { unfold gmul, gsub, zero in *; cbn [re im] in *.
    injection E as E1 E2. f_equal; lia. }
  destruct (complex_eq_dec_zero (gsub a b)) as [D|D].
  - unfold gsub, zero in D. injection D as ? ?. apply complex_eq; lia.
  - now destruct (gmul_nonzero _ _ D Hf).
Qed.

Lemma cunscale_scale_inv p k q r :
  scale p k = Ret q -> unscale q k = Ret r -> r = p.
Proof.
  intros Hs Hu.
  unfold scale in Hs. cbv zeta in Hs. cbn [set at0 at1 at2 at3] in Hs.
  do 5 c_inv Hs. injection Hs as <-.
  unfold unscale in Hu. cbv zeta in Hu. cbn [set at0 at1 at2 at3] in Hu.
  apply bind_inv in Hu as (q1 & Hq1 & Hu). c_inv Hu.
  apply bind_inv in Hu as (q2 & Hq2 & Hu). c_inv Hu.
  apply bind_inv in Hu as (q3 & Hq3 & Hu). injection Hu as <-.
  apply cdiv_inv in Hq1 as (Hq1 & N1). apply cdiv_inv in Hq2 as (Hq2 & N2).
  apply cdiv_inv in Hq3 as (Hq3 & N3).
  apply gmul_cancel_r in Hq1, Hq2, Hq3; try assumption.
  subst. now destruct p.
Qed.

(** The butterfly overflows only when an output of the transform does. *)
Lemma ceval_exact p :
  between4 INT_MIN INT_MAX (cdft4 p) -> eval_from_poly p = Ret (cdft4 p).
Proof.
  rewrite cdft4_unfold.
  destruct p as [[a0 b0] [a1 b1] [a2 b2] [a3 b3]].
  unfold between4, between, gadd, gsub, gmul, i; cbn [re im at0 at1 at2 at3].
  intros (H0 & H1 & H2 & H3).
  unfold eval_from_poly; cbn [at0 at1 at2 at3]. c_unfold. c_run.
  reflexivity.
Qed.

(** * The pipeline on three lost positions *)

Lemma poly_eqb_eq p q : poly_eqb p q = true -> p = q.
Proof.
  destruct p, q. unfold poly_eqb; cbn [at0 at1 at2 at3].
  rewrite !andb_true_iff, !Z.eqb_eq. intros [[[-> ->] ->] ->]. reflexivity.
Qed.

Lemma residues_forall2 (P : Z -> Z -> bool) :
  forallb (fun a => forallb (P a) residues) residues = true ->
  forall a b, canonical a -> canonical b -> P a b = true.
Proof.
  intros H a b Ha Hb.
  rewrite forallb_forall in H. specialize (H a (canonical_cases a Ha)).
  rewrite forallb_forall in H. exact (H b (canonical_cases b Hb)).
Qed.

Lemma three_lost_all d0 d1 :
  canonical d0 -> canonical d1 -> three_lost_run d0 d1 = true.
Proof. apply residues_forall2. vm_compute. reflexivity. Qed.

(** * The claims *)

(** The four reducing operations return canonical residues, and so does
    [neg] away from zero. *)
Lemma residue_ops_canonical a b :
  canonical a -> canonical b ->
  (exists r, Finite.add a b = Ret r /\ canonical r) /\
  (exists r, Finite.sub a b = Ret r /\ canonical r) /\
  (exists r, Finite.mul a b = Ret r /\ canonical r) /\
  (forall r, Finite.div a b = Ret r -> canonical r) /\
  (a <> 0 -> exists r, Finite.neg a = Ret r /\ canonical r).
Proof.
  intros Ha Hb. split; [|split; [|split; [|split]]].
  - rewrite fadd_spec by assumption. eauto.
  - rewrite fsub_spec by assumption. eauto.
  - rewrite fmul_spec by assumption. eauto.
  - intros r Hr. now apply fdiv_inv in Hr.
  - intros Hnz. rewrite fneg_spec by assumption. eexists; split; [reflexivity|].
    unfold canonical, Finite.MOD in *. lia.
Qed.

(** C1. End-to-end recovery. In both programs [main], which is the pipeline
    on the data polynomial [5, 7, 0, 0], the lost positions 1 and 2, the
    zero polynomial of the program and the scale factor 2, runs to
    completion, and the polynomial it prints last, the recovered values, is
    the data polynomial exactly. *)
Theorem end_to_end_recovery :
  Finite.main = Finite.recover (A4 5 7 0 0) [J1; J2] (A4 13 14 1 0) 2 /\
  frecovered Finite.main = Ret (Some (A4 5 7 0 0)) /\
  Complex.main =
    Complex.recover
      (A4 (new_complex 5 0) (new_complex 7 0) (new_complex 0 0) (new_complex 0 0))
      [J1; J2]
      (A4 (new_complex 0 (-1)) (new_complex 1 (-1)) (new_complex 1 0) (new_complex 0 0))
      (new_complex 2 0) /\
  crecovered Complex.main =
    Ret (Some (A4 (new_complex 5 0) (new_complex 7 0)
                  (new_complex 0 0) (new_complex 0 0))).
Proof. repeat split; vm_compute; reflexivity. Qed.

(** C2, as amended. The inverse transform of the forward transform of [p]
    is [p]: over the residues for every polynomial of canonical residues;
    over the complex integers for the polynomials whose real and imaginary
    parts lie in [[-2^27, 2^27 - 1]], and for no other polynomial does the
    round trip return. *)
Theorem transform_round_trip (p : Finite.poly) (c : Complex.poly) :
  canonical4 p ->
  between4 (-134217728) 134217727 c ->
  fround p = Ret p /\
  cround c = Ret c /\
  (forall c' q, cround c' = Ret q ->
     q = c' /\ between4 (-134217728) 134217727 c').
Proof.
  intros Hp Hc. split; [|split].
  - now apply fround_trip.
  - now apply cround_ok.
  - intros c' q H. split; [now apply cround_inv | now apply cround_range in H].
Qed.

Lemma transform_round_trip_witness :
  fround Finite.data_poly = Ret Finite.data_poly /\
  cround Complex.data_poly = Ret Complex.data_poly.
Proof.
  assert (Hp : canonical4 Finite.data_poly)
    by (repeat split; unfold Finite.MOD; cbn; lia).
  assert (Hc : between4 (-134217728) 134217727 Complex.data_poly)
    by (repeat split; cbn; lia).
  destruct (transform_round_trip _ _ Hp Hc) as (Hf & Hr & _).
  exact (conj Hf Hr).
Defined.

(** The claim C2 fails for the complex integers. At [INT_MAX, 1, 0, 0] the
    first output of the forward transform is [INT_MAX + 1]. At
    [2^27, 0, 0, 0] every value of the round trip is an [int] and the
    division of [2^29] by 4 is exact, but [div] multiplies [2^29] by 4. *)
Lemma round_trip_overflow :
  cround (A4 (new_complex 2147483647 0) (new_complex 1 0) zero zero) = Undef /\
  cround (A4 (new_complex 134217728 0) zero zero zero) = Undef.
Proof. split; vm_compute; reflexivity. Qed.

(** C3, as amended. The butterfly is the reference transform: over the
    residues for every polynomial of canonical residues; over the complex
    integers for the polynomials whose reference transform has [int]
    values, and for no other polynomial does the butterfly return. *)
Theorem butterfly_is_dft (p : Finite.poly) (c : Complex.poly) :
  canonical4 p ->
  between4 INT_MIN INT_MAX (cdft4 c) ->
  Finite.eval_from_poly p = Ret (fdft4 p) /\
  Complex.eval_from_poly c = Ret (cdft4 c) /\
  (forall c' e, Complex.eval_from_poly c' = Ret e ->
     e = cdft4 c' /\ between4 INT_MIN INT_MAX (cdft4 c')).
Proof.
  intros Hp Hc. split; [|split].
  - now apply fdft_spec.
  - now apply ceval_exact.
  - intros c' e H. pose proof (ceval_range _ _ H) as R.
    apply ceval_inv in H as ->. auto.
Qed.

Lemma butterfly_is_dft_witness :
  Finite.eval_from_poly Finite.data_poly = Ret (fdft4 Finite.data_poly) /\
  Complex.eval_from_poly Complex.data_poly = Ret (cdft4 Complex.data_poly).
Proof.
  assert (Hp : canonical4 Finite.data_poly)
    by (repeat split; unfold Finite.MOD; cbn; lia).
  assert (Hc : between4 INT_MIN INT_MAX (cdft4 Complex.data_poly))
    by (repeat split; vm_compute; discriminate).
  destruct (butterfly_is_dft _ _ Hp Hc) as (Hf & Hr & _).
  exact (conj Hf Hr).
Defined.

(** The claim C3 fails for the complex integers at the polynomial
    [INT_MAX, 1, 0, 0]: output 0 of the reference transform is [2^31]. *)
Lemma butterfly_overflow :
  Complex.eval_from_poly
    (A4 (new_complex 2147483647 0) (new_complex 1 0) zero zero) = Undef /\
  re (cdft (A4 (new_complex 2147483647 0) (new_complex 1 0) zero zero) 0)
    = 2147483648.
Proof. split; vm_compute; reflexivity. Qed.

(** C4, as amended. [div] returns only an exact quotient [q], one with
    [mul(q, b) == a]. Over the residues it returns exactly when such a
    quotient exists: always for a divisor other than 0, and for the divisor
    0 it returns 0 when [a] is 0 and fails its assertion otherwise. Over the
    complex integers it fails for every divisor [{0, 0}] and whenever no
    quotient with integer parts exists, and it returns the quotient of a
    product [q * y] by a non-zero [y] when the intermediate products fit
    in an [int]. *)
Theorem division_contract (a b : Z) (q y : complex) (Q F : Z) :
  canonical a -> canonical b ->
  1 <= Q -> within Q q -> within F y -> y <> zero ->
  4 * (Q * (F * F)) <= INT_MAX ->
  (forall r, Finite.div a b = Ret r -> canonical r /\ Finite.mul r b = Ret a) /\
  ((exists r, Finite.div a b = Ret r) <->
   (exists r, canonical r /\ Finite.mul r b = Ret a)) /\
  (b <> 0 -> exists r, Finite.div a b = Ret r) /\
  (b = 0 -> Finite.div a b = if a =? 0 then Ret 0 else Abort) /\
  (forall u v r, Complex.div u v = Ret r ->
     Complex.mul r v = Ret u /\ gmul r v = u /\ v <> zero) /\
  (forall u, Complex.div u zero = Undef) /\
  (forall u v, (forall r, gmul r v <> u) -> forall r, Complex.div u v <> Ret r) /\
  Complex.div (gmul q y) y = Ret q.
Proof.
  intros Ha Hb HQ Hq Hy Hnz Hfit.
  assert (Hinv : forall r, Finite.div a b = Ret r ->
                           canonical r /\ Finite.mul r b = Ret a).
  { intros r Hr. apply fdiv_inv in Hr as [Hc E]; [|assumption..].
    split; [assumption|]. rewrite fmul_spec by assumption. now rewrite E. }
  assert (Hz : b = 0 -> Finite.div a b = if a =? 0 then Ret 0 else Abort).
  { intros ->. now apply fdiv_zero. }
  assert (Hnb : b <> 0 -> exists r, Finite.div a b = Ret r).
  { intros Hn. destruct (fdiv_nonzero a b Ha Hb Hn) as [E _]. eauto. }
  split; [exact Hinv|]. split; [|split; [exact Hnb|split; [exact Hz|]]].
  - split.
    + intros [r Hr]. exists r. now apply Hinv.
    + intros [r [Hc Hr]]. destruct (Z.eq_dec b 0) as [E|E]; [|now apply Hnb].
      rewrite (Hz E). subst b. rewrite fmul_spec in Hr by assumption.
      rewrite Z.mul_0_r in Hr. injection Hr as <-. cbn. eauto.
  - split; [|split; [exact cdiv_zero|split]].
    + intros u v r Hr. split; [now apply cdiv_mul|now apply cdiv_inv].
    + intros u v Hno r Hr. apply cdiv_inv in Hr as [E _]. exact (Hno r E).
    + now apply (cdiv_ok q y Q F).
Qed.

Lemma division_contract_witness :
  (exists r, Finite.div 6 3 = Ret r) /\
  Complex.div (gmul (new_complex 5 14) (new_complex (-2) 1)) (new_complex (-2) 1)
    = Ret (new_complex 5 14).
Proof.
  assert (H6 : canonical 6) by (unfold canonical, Finite.MOD; lia).
  assert (H3 : canonical 3) by (unfold canonical, Finite.MOD; lia).
  assert (Hq : within 14 (new_complex 5 14)) by (repeat split; cbn; lia).
  assert (Hy : within 2 (new_complex (-2) 1)) by (repeat split; cbn; lia).
  assert (Hn : new_complex (-2) 1 <> zero) by discriminate.
  assert (Hf : 4 * (14 * (2 * 2)) <= INT_MAX) by (unfold INT_MAX; lia).
  destruct (division_contract 6 3 _ _ 14 2 H6 H3 ltac:(lia) Hq Hy Hn Hf)
    as (_ & _ & Hd & _ & _ & _ & _ & Hc).
  split; [apply Hd; lia | exact Hc].
Defined.

(** The claim C4 fails at the quotient of zero by zero: over the residues
    [div] returns 0 although the divisor is the additive identity, and over
    the complex integers [div] fails although [{0,0}] is an exact quotient. *)
Lemma division_zero_by_zero :
  Finite.div 0 0 = Ret 0 /\
  Complex.div zero zero = Undef /\ Complex.mul zero zero = Ret zero.
Proof. repeat split; vm_compute; reflexivity. Qed.

(** C5, at the failing input. [neg] does not reduce its result: [neg(0)] is
    17, which is not a canonical residue. [main] reaches it through
    [sub(5, 0)], which reduces the sum again. *)
Theorem negation_of_zero_unreduced :
  Finite.neg 0 = Ret 17 /\ ~ canonical 17 /\ Finite.sub 5 0 = Ret 5.
Proof.
  split; [reflexivity|]. split; [|reflexivity].
  unfold canonical, Finite.MOD. lia.
Qed.

(** C6, as amended. [unscale] undoes [scale]: over the residues for every
    polynomial of canonical residues and every non-zero canonical scale
    factor; over the complex integers for every non-zero scale factor with
    parts at most [K] and coefficients 1 to 3 with parts at most [P] in
    absolute value where [64 * P * K^6] is an [int], and whenever both calls
    return they return [p]. *)
Theorem unscale_scale (p : Finite.poly) (k : Z) (c : Complex.poly)
    (z : complex) (P K : Z) :
  canonical4 p -> canonical k -> k <> 0 ->
  1 <= P -> within K z -> z <> zero ->
  within P (at1 c) -> within P (at2 c) -> within P (at3 c) ->
  64 * (P * K ^ 6) <= INT_MAX ->
  (q <- Finite.scale p k ;; Finite.unscale q k) = Ret p /\
  (q <- Complex.scale c z ;; Complex.unscale q z) = Ret c /\
  (forall c' z' q r,
     Complex.scale c' z' = Ret q -> Complex.unscale q z' = Ret r -> r = c').
Proof.
  intros Hp Hk Hnz HP Hz Hzn H1 H2 H3 Hfit. split; [|split].
  - now apply funscale_scale.
  - now apply (cunscale_scale c z P K).
  - apply cunscale_scale_inv.
Qed.

Lemma unscale_scale_witness :
  (q <- Finite.scale (A4 14 8 1 7) 2 ;; Finite.unscale q 2) = Ret (A4 14 8 1 7) /\
  (q <- Complex.scale Complex.zero_poly two ;; Complex.unscale q two)
    = Ret Complex.zero_poly.
Proof.
  assert (Hp : canonical4 (A4 14 8 1 7))
    by (repeat split; unfold Finite.MOD; cbn; lia).
  assert (Hk : canonical 2) by (unfold canonical, Finite.MOD; lia).
  assert (Hz : within 2 two) by (repeat split; cbn; lia).
  assert (Hn : two <> zero) by discriminate.
  assert (H1 : within 1 (at1 Complex.zero_poly)) by (repeat split; cbn; lia).
  assert (H2 : within 1 (at2 Complex.zero_poly)) by (repeat split; cbn; lia).
  assert (H3 : within 1 (at3 Complex.zero_poly)) by (repeat split; cbn; lia).
  assert (Hf : 64 * (1 * 2 ^ 6) <= INT_MAX) by (unfold INT_MAX; lia).
  destruct (unscale_scale _ 2 _ _ 1 2 Hp Hk ltac:(lia) ltac:(lia) Hz Hn H1 H2 H3 Hf)
    as (Hf' & Hc & _).
  exact (conj Hf' Hc).
Defined.

(** The claim C6 fails for the complex integers with the scale factor 2. At
    [0, INT_MAX, 0, 0] the scaled coefficient is [2 * INT_MAX]. At
    [0, 0, 0, 2^25] the scaled coefficient [2^28] is an [int] and its
    division by 8 is exact, but [div] multiplies it by 8. *)
Lemma scale_overflow :
  (q <- Complex.scale (A4 zero (new_complex 2147483647 0) zero zero) two ;;
   Complex.unscale q two) = Undef /\
  (q <- Complex.scale (A4 zero zero zero (new_complex 33554432 0)) two ;;
   Complex.unscale q two) = Undef.
Proof. split; vm_compute; reflexivity. Qed.

(** C7, as amended. [scale] and [unscale] leave coefficient 0 as it is;
    every result of [scale] has [p[j] * k^j] as coefficient [j], and every
    result [q] of [unscale] has [q[j] * k^j == p[j]], for [j] = 1, 2, 3.
    Over the residues [scale] returns for all canonical arguments and
    [unscale] for every scale factor other than 0. Over the complex integers,
    for a scale factor other than [{0, 0}] with parts at most [K] and
    coefficients 1 to 3 with parts at most [P] in absolute value, where
    [1 <= P] and [64 * P * K^6] is an [int], [scale] returns the
    coefficients [c[j] * z^j] and [unscale] returns [c] from them; with the
    scale factor [{0, 0}] [unscale] never returns. *)
Theorem scale_frame (p : Finite.poly) (k : Z) (c : Complex.poly)
    (z : complex) (P K : Z) :
  canonical4 p -> canonical k ->
  1 <= P -> within K z -> z <> zero ->
  within P (at1 c) -> within P (at2 c) -> within P (at3 c) ->
  64 * (P * K ^ 6) <= INT_MAX ->
  (exists q, Finite.scale p k = Ret q /\
     at0 q = at0 p /\
     at1 q = (at1 p * k ^ 1) mod 17 /\
     at2 q = (at2 p * k ^ 2) mod 17 /\
     at3 q = (at3 p * k ^ 3) mod 17) /\
  (forall q, Finite.unscale p k = Ret q ->
     at0 q = at0 p /\
     (at1 q * k ^ 1) mod 17 = at1 p /\
     (at2 q * k ^ 2) mod 17 = at2 p /\
     (at3 q * k ^ 3) mod 17 = at3 p) /\
  (k <> 0 -> exists q, Finite.unscale p k = Ret q) /\
  (forall c' z' q, Complex.scale c' z' = Ret q ->
     at0 q = at0 c' /\
     at1 q = gmul (at1 c') (gpow z' 1) /\
     at2 q = gmul (at2 c') (gpow z' 2) /\
     at3 q = gmul (at3 c') (gpow z' 3)) /\
  (forall c' z' q, Complex.unscale c' z' = Ret q ->
     at0 q = at0 c' /\
     gmul (at1 q) (gpow z' 1) = at1 c' /\
     gmul (at2 q) (gpow z' 2) = at2 c' /\
     gmul (at3 q) (gpow z' 3) = at3 c') /\
  Complex.scale c z =
    Ret (A4 (at0 c) (gmul (at1 c) (gpow z 1)) (gmul (at2 c) (gpow z 2))
            (gmul (at3 c) (gpow z 3))) /\
  Complex.unscale
    (A4 (at0 c) (gmul (at1 c) (gpow z 1)) (gmul (at2 c) (gpow z 2))
        (gmul (at3 c) (gpow z 3))) z = Ret c /\
  (forall c', Complex.unscale c' zero = Undef).
Proof.
  intros Hp Hk HP Hz Hzn H1 H2 H3 Hfit.
  split; [|split; [|split; [|split; [|split; [|split; [|split]]]]]].
  - rewrite fscale_spec by assumption. eexists. split; [reflexivity|].
    cbn [at0 at1 at2 at3]. rewrite Z.pow_1_r, mod17_pow2, mod17_pow3. auto.
  - intros q Hq. apply funscale_inv in Hq; [|assumption..].
    rewrite Z.pow_1_r. tauto.
  - intros Hnz. now apply funscale_total.
  - apply cscale_inv.
  - apply cunscale_inv.
  - rewrite gpow_1, gpow_2, gpow_3. now apply (cscale_ok c z P K).
  - rewrite gpow_1, gpow_2, gpow_3.
    pose proof (cunscale_scale c z P K HP Hz Hzn H1 H2 H3 Hfit) as E.
    rewrite (cscale_ok c z P K) in E by assumption. exact E.
  - intros c'. unfold Complex.unscale. cbv zeta.
    now rewrite cdiv_zero.
Qed.

Lemma scale_frame_witness :
  (exists q, Finite.scale (A4 14 8 1 7) 2 = Ret q /\
     at0 q = 14 /\
     at1 q = (8 * 2 ^ 1) mod 17 /\
     at2 q = (1 * 2 ^ 2) mod 17 /\
     at3 q = (7 * 2 ^ 3) mod 17) /\
  (exists q, Finite.unscale (A4 14 8 1 7) 2 = Ret q) /\
  Complex.scale Complex.zero_poly two =
    Ret (A4 (new_complex 0 (-1)) (new_complex 2 (-2)) (new_complex 4 0) zero) /\
  Complex.unscale
    (A4 (new_complex 0 (-1)) (new_complex 2 (-2)) (new_complex 4 0) zero) two
    = Ret Complex.zero_poly.
Proof.
  assert (Hp : canonical4 (A4 14 8 1 7))
    by (repeat split; unfold Finite.MOD; cbn; lia).
  assert (Hk : canonical 2) by (unfold canonical, Finite.MOD; lia).
  assert (Hz : within 2 two) by (repeat split; cbn; lia).
  assert (Hn : two <> zero) by discriminate.
  assert (H1 : within 1 (at1 Complex.zero_poly)) by (repeat split; cbn; lia).
  assert (H2 : within 1 (at2 Complex.zero_poly)) by (repeat split; cbn; lia).
  assert (H3 : within 1 (at3 Complex.zero_poly)) by (repeat split; cbn; lia).
  assert (Hf : 64 * (1 * 2 ^ 6) <= INT_MAX) by (unfold INT_MAX; lia).
  destruct (scale_frame _ 2 Complex.zero_poly two 1 2 Hp Hk ltac:(lia)
              Hz Hn H1 H2 H3 Hf) as (Hs & _ & Hu & _ & _ & Hcs & Hcu & _).
  split; [exact Hs|]. split; [apply Hu; lia|].
  split; [exact Hcs | exact Hcu].
Defined.

(** The claim C7 does not hold for every polynomial and scale factor. Over
    the complex integers with the scale factor 2, [scale] at
    [0, INT_MAX, 0, 0] computes [2 * INT_MAX], and [unscale] at
    [0, 0, 0, 2^28] multiplies by 8 although the division by 8 is exact;
    [unscale] fails its assertion at [0, 1, 0, 0], where 1 is no multiple
    of 2, and with the scale factor 0 over the residues. *)
Lemma scale_frame_overflow :
  Complex.scale (A4 zero (new_complex 2147483647 0) zero zero) two = Undef /\
  Complex.unscale (A4 zero zero zero (new_complex 268435456 0)) two = Undef /\
  Complex.unscale (A4 zero (new_complex 1 0) zero zero) two = Abort /\
  Finite.unscale (A4 0 1 0 0) 0 = Abort.
Proof. repeat split; vm_compute; reflexivity. Qed.

(** C8. The forward transform of the zero polynomial of each program is the
    additive identity at the lost positions 1 and 2, and at no other
    position. *)
Theorem zero_poly_roots :
  (exists e, Finite.eval_from_poly Finite.zero_poly = Ret e /\
     forall j, get e j = 0 <-> In j [J1; J2]) /\
  (exists e, Complex.eval_from_poly Complex.zero_poly = Ret e /\
     forall j, get e j = zero <-> In j [J1; J2]).
Proof.
  split.
  - exists (A4 11 0 0 7). split; [reflexivity|].
    intros j; destruct j; cbn; split; intros H;
      repeat destruct H as [H|H]; try discriminate; try contradiction; auto.
  - exists (A4 (new_complex 2 (-2)) zero zero (new_complex (-2) (-2))).
    split; [reflexivity|].
    intros j; destruct j; cbn; split; intros H;
      repeat destruct H as [H|H]; try discriminate; try contradiction; auto.
Qed.

(** C9, as amended. The pipeline has no check of the number of lost
    positions. Run with the three positions 1, 2 and 3 lost, their zero
    polynomial [1, 1, 1, 1] and the scale factor 2, it raises no failure and
    returns the polynomial [d0 + d1, 0, 0, 0]: for all data [d0, d1] over
    the residues, and for the data [5, 7] over the complex integers. *)
Theorem three_erasures_undetected (d0 d1 : Z) :
  canonical d0 -> canonical d1 ->
  Finite.eval_from_poly fzero_poly3 = Ret (A4 4 0 0 0) /\
  frecovered (Finite.recover (A4 d0 d1 0 0) [J1; J2; J3] fzero_poly3 2)
    = Ret (Some (A4 ((d0 + d1) mod 17) 0 0 0)) /\
  Complex.eval_from_poly czero_poly3 = Ret (A4 four zero zero zero) /\
  crecovered (Complex.recover Complex.data_poly [J1; J2; J3] czero_poly3 two)
    = Ret (Some (A4 (new_complex 12 0) zero zero zero)).
Proof.
  intros H0 H1. split; [reflexivity|]. split; [|split; reflexivity].
  pose proof (three_lost_all d0 d1 H0 H1) as H. unfold three_lost_run in H.
  destruct (frecovered _) as [[q|]| |]; try discriminate.
  apply poly_eqb_eq in H. now subst q.
Qed.

Lemma three_erasures_undetected_witness :
  frecovered (Finite.recover (A4 3 0 0 0) [J1; J2; J3] fzero_poly3 2)
    = Ret (Some (A4 ((3 + 0) mod 17) 0 0 0)).
Proof.
  assert (H3 : canonical 3) by (unfold canonical, Finite.MOD; lia).
  assert (H0 : canonical 0) by (unfold canonical, Finite.MOD; lia).
  exact (proj1 (proj2 (three_erasures_undetected 3 0 H3 H0))).
Defined.

(** The claim C9 fails on the data [5, 7] with the positions 1, 2 and 3
    lost: both programs run to completion and return [12, 0, 0, 0]. *)
Lemma three_erasures_wrong_output :
  frecovered (Finite.recover Finite.data_poly [J1; J2; J3] fzero_poly3 2)
    = Ret (Some (A4 12 0 0 0)) /\
  A4 12 0 0 0 <> Finite.data_poly /\
  crecovered (Complex.recover Complex.data_poly [J1; J2; J3] czero_poly3 two)
    = Ret (Some (A4 (new_complex 12 0) zero zero zero)) /\
  A4 (new_complex 12 0) zero zero zero <> Complex.data_poly.
Proof. repeat split; (reflexivity || discriminate). Qed.

(** C10. Over the residues the inverse transform is total: the division of a
    canonical residue by 4 returns, with its self-check [mul(q, 4) == a]
    satisfied, and [poly_from_eval] returns canonical residues for every
    vector of canonical residues. *)
Theorem inverse_transform_total (e : Finite.poly) (a : Z) :
  canonical4 e -> canonical a ->
  (exists q, Finite.div a 4 = Ret q /\ canonical q /\ Finite.mul q 4 = Ret a) /\
  (exists c, Finite.poly_from_eval e = Ret c /\ canonical4 c).
Proof.
  intros He Ha. split.
  - destruct (fdiv_nonzero a 4) as [E M]; auto; [discriminate|].
    eexists. split; [exact E|]. split; [auto|].
    rewrite fmul_spec by auto. now rewrite M.
  - rewrite fpoly_spec by assumption. eexists. split; [reflexivity|].
    unfold canonical4; cbn [at0 at1 at2 at3]. auto 6.
Qed.

Lemma inverse_transform_total_witness :
  (exists q, Finite.div 13 4 = Ret q /\ canonical q /\ Finite.mul q 4 = Ret 13) /\
  (exists c, Finite.poly_from_eval (A4 13 0 0 9) = Ret c /\ canonical4 c).
Proof.
  assert (He : canonical4 (A4 13 0 0 9))
    by (repeat split; unfold Finite.MOD; cbn; lia).
  assert (Ha : canonical 13) by (unfold canonical, Finite.MOD; lia).
  exact (inverse_transform_total _ 13 He Ha).
Defined.

(** * Further properties of finite.c *)

Lemma irem17_any a : irem a 17 = Ret (Z.rem a 17).
Proof.
  unfold irem. cbn [Z.eqb]. now rewrite andb_false_r.
Qed.

Lemma fequal_unfold a b : Finite.equal a b = Ret (Z.rem a 17 =? Z.rem b 17).
Proof. unfold Finite.equal, Finite.MOD. now rewrite !irem17_any. Qed.

(** X1. [equal] compares non-negative values modulo 17, reduced or not; a
    negative and a non-negative value are equal only when both are
    multiples of 17. *)
Theorem equal_is_congruence (a b c : Z) :
  0 <= a -> 0 <= b -> c < 0 ->
  (Finite.equal a b = Ret true <-> a mod 17 = b mod 17) /\
  (Finite.equal a b = Ret false <-> a mod 17 <> b mod 17) /\
  (Finite.equal c b = Ret true <-> c mod 17 = 0 /\ b mod 17 = 0).
Proof.
  intros Ha Hb Hc. rewrite !fequal_unfold.
  rewrite (Z.rem_mod_nonneg a 17), (Z.rem_mod_nonneg b 17) by lia.
  split; [|split].
  - split.
    + intros [= H]. now apply Z.eqb_eq.
    + intros H. f_equal. now apply Z.eqb_eq.
  - split.
    + intros [= H]. now apply Z.eqb_neq.
    + intros H. f_equal. now apply Z.eqb_neq.
  - pose proof (Z.rem_bound_pos_neg c 17 ltac:(lia) ltac:(lia)) as Hr.
    pose proof (Z.mod_pos_bound b 17 ltac:(lia)) as Hm.
    assert (Hc0 : Z.rem c 17 = 0 <-> c mod 17 = 0).
    { rewrite Z.rem_divide, Z.mod_divide by lia. reflexivity. }
    split.
    + intros [= H]. apply Z.eqb_eq in H.
      assert (Z.rem c 17 = 0) by lia. split; [now apply Hc0 | lia].
    + intros [H1 H2]. apply Hc0 in H1. rewrite H1, H2. reflexivity.
Qed.

Lemma equal_is_congruence_witness :
  Finite.equal 17 0 = Ret true <-> 17 mod 17 = 0 mod 17.
Proof.
  exact (proj1 (equal_is_congruence 17 0 (-1) ltac:(lia) ltac:(lia) ltac:(lia))).
Defined.

(** X2. The table [inv] holds the multiplicative inverses: for every
    non-zero residue [b] the entry [inv[b]] is a non-zero residue with
    [mul(b, inv[b]) == 1]. *)
Theorem inverse_table_correct (b : Z) :
  canonical b -> b <> 0 ->
  exists v, index Finite.inv b = Ret v /\ canonical v /\ v <> 0 /\
            Finite.mul b v = Ret 1.
Proof.
  intros Hb Hnz. rewrite index_inv by assumption. exists (finv b).
  split; [reflexivity|].
  residue_cases b Hb; try congruence;
    (split; [cbv; split; congruence | split; [discriminate | reflexivity]]).
Qed.

Lemma inverse_table_correct_witness :
  exists v, index Finite.inv 5 = Ret v /\ canonical v /\ v <> 0 /\
            Finite.mul 5 v = Ret 1.
Proof.
  apply inverse_table_correct; unfold canonical, Finite.MOD; lia.
Defined.

(** X3. On canonical residues [add] and [mul] obey the laws of a
    commutative ring with the identities 0 and 1, and [neg] gives the
    additive inverse. *)
Theorem residue_ring_laws (a b c : Z) :
  canonical a -> canonical b -> canonical c ->
  Finite.add a b = Finite.add b a /\
  Finite.mul a b = Finite.mul b a /\
  (x <- Finite.add a b ;; Finite.add x c) = (y <- Finite.add b c ;; Finite.add a y) /\
  (x <- Finite.mul a b ;; Finite.mul x c) = (y <- Finite.mul b c ;; Finite.mul a y) /\
  (s <- Finite.add b c ;; Finite.mul a s) =
    (x <- Finite.mul a b ;; y <- Finite.mul a c ;; Finite.add x y) /\
  Finite.add a 0 = Ret a /\
  Finite.mul a 1 = Ret a /\
  Finite.mul a 0 = Ret 0 /\
  (n <- Finite.neg a ;; Finite.add a n) = Ret 0.
Proof.
  intros Ha Hb Hc.
  assert (H0 : canonical 0) by (cbv; split; congruence).
  assert (H1 : canonical 1) by (cbv; split; congruence).
  rewrite !fadd_spec, !fmul_spec by assumption. cbn [bind].
  rewrite ?fadd_spec, ?fmul_spec by auto. cbn [bind].
  rewrite ?fadd_spec by auto.
  rewrite fneg_spec by assumption. cbn [bind].
  unfold canonical, Finite.MOD in *.
  repeat split.
  - now rewrite Z.add_comm.
  - now rewrite Z.mul_comm.
  - f_equal. rewrite Z.add_mod_idemp_l, Z.add_mod_idemp_r by lia. f_equal. lia.
  - f_equal. rewrite Z.mul_mod_idemp_l, Z.mul_mod_idemp_r by lia. f_equal. lia.
  - f_equal. rewrite Z.mul_mod_idemp_r by lia.
    rewrite <- Z.add_mod by lia. f_equal. lia.
  - f_equal. rewrite Z.add_0_r. apply Z.mod_small; lia.
  - f_equal. rewrite Z.mul_1_r. apply Z.mod_small; lia.
  - f_equal. now rewrite Z.mul_0_r.
  - unfold Finite.add, iadd. rewrite chk_ok by in_range. cbn [bind].
    rewrite irem17 by lia. f_equal.
    replace (a + (17 - a)) with 17 by lia. reflexivity.
Qed.

Lemma residue_ring_laws_witness :
  (s <- Finite.add 5 7 ;; Finite.mul 3 s) =
    (x <- Finite.mul 3 5 ;; y <- Finite.mul 3 7 ;; Finite.add x y).
Proof.
  assert (H3 : canonical 3) by (unfold canonical, Finite.MOD; lia).
  assert (H5 : canonical 5) by (unfold canonical, Finite.MOD; lia).
  assert (H7 : canonical 7) by (unfold canonical, Finite.MOD; lia).
  exact (proj1 (proj2 (proj2 (proj2 (proj2 (residue_ring_laws 3 5 7 H3 H5 H7)))))).
Defined.

(** X4. On canonical residues [sub] undoes [add] and [add] undoes [sub]. *)
Theorem add_sub_inverse (a b : Z) :
  canonical a -> canonical b ->
  (s <- Finite.add a b ;; Finite.sub s b) = Ret a /\
  (d <- Finite.sub a b ;; Finite.add d b) = Ret a.
Proof.
  intros Ha Hb.
  rewrite fadd_spec, fsub_spec by assumption. cbn [bind].
  rewrite fsub_spec, fadd_spec by auto.
  unfold canonical, Finite.MOD in *.
  split; f_equal; Z.div_mod_to_equations; lia.
Qed.

Lemma add_sub_inverse_witness :
  (s <- Finite.add 12 9 ;; Finite.sub s 9) = Ret 12 /\
  (d <- Finite.sub 12 9 ;; Finite.add d 9) = Ret 12.
Proof.
  apply add_sub_inverse; unfold canonical, Finite.MOD; lia.
Defined.

(** X5. Non-negative operands need not be reduced: [add] and [mul] return
    the canonical residue of the sum and of the product when these are an
    [int]. [sub] adds [MOD - b] to [a]: when [a + 17 - b] is more than
    [INT_MAX] the addition overflows; otherwise [sub] returns the canonical
    residue of the difference as long as the subtrahend is at most
    [a + 17], and for a larger subtrahend a value that is not positive. *)
Theorem unreduced_operands (a b : Z) :
  0 <= a <= INT_MAX -> 0 <= b <= INT_MAX ->
  (a + b <= INT_MAX -> Finite.add a b = Ret ((a + b) mod 17)) /\
  (a * b <= INT_MAX -> Finite.mul a b = Ret ((a * b) mod 17)) /\
  (INT_MAX < a + 17 - b -> Finite.sub a b = Undef) /\
  (b <= a + 17 -> a + 17 - b <= INT_MAX ->
   Finite.sub a b = Ret ((a - b) mod 17)) /\
  (a + 17 < b -> Finite.sub a b = Ret (- ((b - a) mod 17))).
Proof.
  intros Ha Hb. split; [|split; [|split; [|split]]].
  - intros H. unfold Finite.add, iadd, Finite.MOD.
    rewrite chk_ok by in_range. cbn [bind]. apply irem17; lia.
  - intros H. unfold Finite.mul, imul, Finite.MOD.
    assert (0 <= a * b) by nia.
    rewrite chk_ok by in_range. cbn [bind].
    apply irem17; lia.
  - intros H. unfold Finite.sub, Finite.neg, isub, iadd, Finite.MOD.
    rewrite chk_ok by in_range. cbn [bind].
    unfold chk. destruct (in_int (a + (17 - b))) eqn:E; [|reflexivity].
    apply in_int_iff in E. unfold INT_MIN, INT_MAX in *. lia.
  - intros H1 H2. unfold Finite.sub, Finite.neg, isub, iadd, Finite.MOD.
    rewrite chk_ok by in_range. cbn [bind].
    rewrite chk_ok by in_range. cbn [bind].
    rewrite irem17 by lia. f_equal.
    replace (a + (17 - b)) with ((a - b) + 1 * 17) by lia.
    apply Z.mod_add; lia.
  - intros H1. unfold Finite.sub, Finite.neg, isub, iadd, Finite.MOD.
    rewrite chk_ok by in_range. cbn [bind].
    rewrite chk_ok by in_range. cbn [bind].
    rewrite irem17_any. f_equal.
    replace (a + (17 - b)) with (- (b - a - 17)) by lia.
    rewrite Z.rem_opp_l by lia. rewrite Z.rem_mod_nonneg by lia. f_equal.
    replace (b - a - 17) with ((b - a) + (-1) * 17) by lia.
    apply Z.mod_add; lia.
Qed.

Lemma unreduced_operands_witness :
  Finite.add 5 17 = Ret ((5 + 17) mod 17) /\
  Finite.sub 2147483647 0 = Undef /\
  Finite.sub 20 3 = Ret ((20 - 3) mod 17) /\
  Finite.sub 0 18 = Ret (- ((18 - 0) mod 17)).
Proof.
  destruct (unreduced_operands 5 17 ltac:(unfold INT_MAX; lia)
              ltac:(unfold INT_MAX; lia)) as (Hadd & _).
  destruct (unreduced_operands 2147483647 0 ltac:(unfold INT_MAX; lia)
              ltac:(unfold INT_MAX; lia)) as (_ & _ & Hov & _).
  destruct (unreduced_operands 20 3 ltac:(unfold INT_MAX; lia)
              ltac:(unfold INT_MAX; lia)) as (_ & _ & _ & Hle & _).
  destruct (unreduced_operands 0 18 ltac:(unfold INT_MAX; lia)
              ltac:(unfold INT_MAX; lia)) as (_ & _ & _ & _ & Hsub).
  split; [|split; [|split]];
    [apply Hadd | apply Hov | apply Hle | apply Hsub]; unfold INT_MAX; lia.
Defined.

(** X6. [div] indexes the table with [b % MOD]: a negative divisor that is
    not a multiple of 17 reads before the table, and a non-negative
    divisor is reduced first. *)
Theorem div_reduces_divisor (a b c : Z) :
  canonical a -> 0 <= b -> 16 * b <= INT_MAX ->
  c < 0 -> c mod 17 <> 0 ->
  Finite.div a b = Finite.div a (b mod 17) /\
  (forall u, Finite.div u c = Undef).
Proof.
  intros Ha Hb Hfit Hc Hnz. split.
  - assert (Hm : canonical (b mod 17)) by auto.
    unfold Finite.div, Finite.MOD.
    rewrite (irem17 b), (irem17 (b mod 17)) by (unfold canonical, Finite.MOD in Hm; lia).
    cbn [bind]. rewrite Z.mod_mod by lia.
    rewrite index_inv by exact Hm. cbn [bind].
    assert (Hv : canonical (finv (b mod 17))).
    { generalize dependent (b mod 17). intros m Hm.
      residue_cases m Hm; cbv; split; congruence. }
    unfold imul. unfold canonical, Finite.MOD in Ha, Hv, Hm.
    rewrite chk_ok by (unfold INT_MIN, INT_MAX; nia). cbn [bind].
    rewrite irem17 by nia. cbn [bind].
    set (ret := (a * finv (b mod 17)) mod 17).
    assert (Hret : canonical ret) by (subst ret; auto).
    rewrite (fmul_spec ret (b mod 17)) by auto.
    unfold Finite.mul, imul, Finite.MOD. unfold canonical, Finite.MOD in Hret.
    rewrite chk_ok by (unfold INT_MIN, INT_MAX in *; nia). cbn [bind].
    rewrite irem17 by nia. cbn [bind].
    now rewrite Z.mul_mod_idemp_r by lia.
  - intros u. unfold Finite.div, Finite.MOD. rewrite irem17_any. cbn [bind].
    pose proof (Z.rem_bound_pos_neg c 17 ltac:(lia) ltac:(lia)) as Hr.
    assert (Z.rem c 17 <> 0).
    { rewrite Z.rem_divide by lia. rewrite <- Z.mod_divide by lia. exact Hnz. }
    unfold index. replace (Z.rem c 17 <? 0) with true
      by (symmetry; apply Z.ltb_lt; lia).
    reflexivity.
Qed.

Lemma div_reduces_divisor_witness :
  Finite.div 6 20 = Finite.div 6 (20 mod 17) /\
  (forall u, Finite.div u (-1) = Undef).
Proof.
  apply div_reduces_divisor;
    unfold canonical, Finite.MOD, INT_MAX; cbn; lia.
Defined.

(** X7. [unscale] by 0 returns only for a polynomial whose coefficients 1
    to 3 are 0, which it returns unchanged; for every other polynomial the
    self-check of [div] fails. *)
Theorem unscale_by_zero (p : Finite.poly) :
  canonical4 p ->
  (at1 p = 0 /\ at2 p = 0 /\ at3 p = 0 -> Finite.unscale p 0 = Ret p) /\
  (~ (at1 p = 0 /\ at2 p = 0 /\ at3 p = 0) -> Finite.unscale p 0 = Abort).
Proof.
  intros (H0 & H1 & H2 & H3). destruct p as [p0 p1 p2 p3].
  cbn [at0 at1 at2 at3] in *.
  unfold Finite.unscale. cbv zeta. cbn [set at0 at1 at2 at3].
  rewrite (fdiv_zero p1) by assumption.
  change (Finite.mul 0 0) with (@Ret Z 0).
  split.
  - intros (-> & -> & ->). reflexivity.
  - intros Hn. destruct (Z.eqb_spec p1 0) as [->|]; [|reflexivity].
    cbn [bind]. rewrite (fdiv_zero p2) by assumption.
    destruct (Z.eqb_spec p2 0) as [->|]; [|reflexivity].
    cbn [bind]. change (Finite.mul 0 0) with (@Ret Z 0). cbn [bind].
    rewrite (fdiv_zero p3) by assumption.
    destruct (Z.eqb_spec p3 0) as [->|]; [|reflexivity].
    now contradiction Hn.
Qed.

Lemma unscale_by_zero_witness :
  Finite.unscale (A4 5 0 0 0) 0 = Ret (A4 5 0 0 0).
Proof.
  assert (Hp : canonical4 (A4 5 0 0 0))
    by (repeat split; unfold Finite.MOD; cbn; lia).
  apply (proj1 (unscale_by_zero _ Hp)). cbn. auto.
Defined.

(** Arithmetic modulo 17 as a congruence, for rewriting under sums and
    products. *)
#[local] Instance eqm17_equiv : Equivalence (eqm 17) := eqm_setoid 17.
#[local] Instance eqm17_add : Proper (eqm 17 ==> eqm 17 ==> eqm 17) Z.add :=
  Zplus_eqm 17.
#[local] Instance eqm17_sub : Proper (eqm 17 ==> eqm 17 ==> eqm 17) Z.sub :=
  Zminus_eqm 17.
#[local] Instance eqm17_mul : Proper (eqm 17 ==> eqm 17 ==> eqm 17) Z.mul :=
  Zmult_eqm 17.

(** Proves [a mod 17 = b mod 17] when [a] and [b] are equal as polynomials
    once the inner reductions are dropped. *)
Ltac mod17_ring :=
  match goal with
  | |- ?a mod 17 = ?b mod 17 =>
      change (eqm 17 a b); rewrite ?(Zmod_eqm 17); unfold eqm; f_equal; ring
  end.

(** X8. Scaling twice is scaling by the product, and scaling by 1 changes
    nothing. *)
Theorem scale_composes (p : Finite.poly) (k1 k2 : Z) :
  canonical4 p -> canonical k1 -> canonical k2 ->
  (q <- Finite.scale p k1 ;; Finite.scale q k2) =
    (k <- Finite.mul k1 k2 ;; Finite.scale p k) /\
  Finite.scale p 1 = Ret p.
Proof.
  intros Hp H1 H2. pose proof Hp as (P0 & P1 & P2 & P3).
  assert (C1 : canonical 1) by (cbv; split; congruence).
  rewrite (fscale_spec p k1), fmul_spec by assumption. cbn [bind].
  rewrite !fscale_spec
    by (assumption || auto || (unfold canonical4; cbn [at0 at1 at2 at3]; auto 6)).
  cbn [at0 at1 at2 at3]. destruct p as [p0 p1 p2 p3].
  cbn [at0 at1 at2 at3] in *. unfold canonical, Finite.MOD in *.
  split.
  - apply Ret_A4_eq; [reflexivity|..]; mod17_ring.
  - apply Ret_A4_eq; [reflexivity|..];
      rewrite ?Z.mul_1_r; apply Z.mod_small; lia.
Qed.

Lemma scale_composes_witness :
  (q <- Finite.scale (A4 14 8 1 7) 2 ;; Finite.scale q 9) =
    (k <- Finite.mul 2 9 ;; Finite.scale (A4 14 8 1 7) k).
Proof.
  assert (Hp : canonical4 (A4 14 8 1 7))
    by (repeat split; unfold Finite.MOD; cbn; lia).
  assert (H2 : canonical 2) by (unfold canonical, Finite.MOD; lia).
  assert (H9 : canonical 9) by (unfold canonical, Finite.MOD; lia).
  exact (proj1 (scale_composes _ 2 9 Hp H2 H9)).
Defined.

(** X9. The forward transform undoes the inverse transform on every vector
    of canonical residues. *)
Theorem inverse_then_forward (e : Finite.poly) :
  canonical4 e ->
  (c <- Finite.poly_from_eval e ;; Finite.eval_from_poly c) = Ret e.
Proof.
  intros He. rewrite fpoly_spec by assumption. cbn [bind].
  rewrite feval_spec by (unfold canonical4; cbn [at0 at1 at2 at3]; auto 6).
  cbn [at0 at1 at2 at3]. destruct e as [e0 e1 e2 e3].
  destruct He as (H0 & H1 & H2 & H3). unfold canonical, Finite.MOD in *.
  cbn [at0 at1 at2 at3] in *.
  apply Ret_A4_eq; Z.div_mod_to_equations; lia.
Qed.

Lemma inverse_then_forward_witness :
  (c <- Finite.poly_from_eval (A4 12 16 15 11) ;; Finite.eval_from_poly c)
    = Ret (A4 12 16 15 11).
Proof.
  apply inverse_then_forward. repeat split; unfold Finite.MOD; cbn; lia.
Defined.

(** X10. The forward transform is linear: the transform of a coefficient-wise
    sum is the sum of the transforms. *)
Theorem forward_is_linear (p q : Finite.poly) :
  canonical4 p -> canonical4 q ->
  (s <- fpadd p q ;; Finite.eval_from_poly s) =
    (e <- Finite.eval_from_poly p ;; f <- Finite.eval_from_poly q ;; fpadd e f).
Proof.
  intros Hp Hq. pose proof Hp as (P0 & P1 & P2 & P3).
  pose proof Hq as (Q0 & Q1 & Q2 & Q3).
  rewrite (feval_spec p), (feval_spec q) by assumption. cbn [bind].
  unfold fpadd. cbn [at0 at1 at2 at3].
  rewrite !fadd_spec by auto. cbn [bind].
  rewrite feval_spec by (unfold canonical4; cbn [at0 at1 at2 at3]; auto 6).
  cbn [at0 at1 at2 at3].
  destruct p as [p0 p1 p2 p3], q as [q0 q1 q2 q3].
  cbn [at0 at1 at2 at3] in *. unfold canonical, Finite.MOD in *.
  apply Ret_A4_eq; mod17_ring.
Qed.

Lemma forward_is_linear_witness :
  (s <- fpadd (A4 5 7 0 0) (A4 13 14 1 0) ;; Finite.eval_from_poly s) =
    (e <- Finite.eval_from_poly (A4 5 7 0 0) ;;
     f <- Finite.eval_from_poly (A4 13 14 1 0) ;; fpadd e f).
Proof.
  apply forward_is_linear; repeat split; unfold Finite.MOD; cbn; lia.
Defined.


(** * The pipeline of finite.c on all data *)

Lemma bind_ext {A B : Type} (m : outcome A) (f g : A -> outcome B) :
  (forall a, f a = g a) -> bind m f = bind m g.
Proof. intros H. destruct m; cbn; auto. Qed.

Lemma set_set_comm {A : Type} (e : arr4 A) (a b : idx) (v : A) :
  set (set e a v) b v = set (set e b v) a v.
Proof. destruct a, b; reflexivity. Qed.

(** The order in which two positions are lost does not matter. *)
Lemma recover_lost_swap p j1 j2 z k :
  Finite.recover p [j1; j2] z k = Finite.recover p [j2; j1] z k.
Proof.
  unfold Finite.recover. cbv zeta. apply bind_ext. intros e.
  cbn [fold_left]. now rewrite set_set_comm.
Qed.

Lemma idx_eqb_eq a b : idx_eqb a b = true <-> a = b.
Proof. destruct a, b; cbn; split; (reflexivity || discriminate). Qed.

Lemma position_pairs_complete j1 j2 :
  j1 <> j2 -> In (j1, j2) position_pairs \/ In (j2, j1) position_pairs.
Proof.
  intros H. destruct j1, j2; cbn; try (now contradiction H); auto 10.
Qed.

Lemma vanishes_at_swap z j1 j2 : vanishes_at z j1 j2 = vanishes_at z j2 j1.
Proof.
  unfold vanishes_at. destruct (Finite.eval_from_poly z); try reflexivity.
  cbn [forallb]. now rewrite !(orb_comm (idx_eqb _ j1)).
Qed.

Lemma vanishes_at_intro z e j1 j2 :
  Finite.eval_from_poly z = Ret e ->
  (forall j, get e j = 0 <-> j = j1 \/ j = j2) ->
  vanishes_at z j1 j2 = true.
Proof.
  intros He H. unfold vanishes_at. rewrite He. apply forallb_forall.
  intros j _. apply eqb_true_iff. apply eq_true_iff_eq.
  rewrite orb_true_iff, Z.eqb_eq, !idx_eqb_eq. apply H.
Qed.

Lemma recovery_check_all :
  forallb (fun z0 => forallb (fun z1 =>
    forallb (recovery_check z0 z1) position_pairs) residues) residues = true.
Proof. vm_compute. reflexivity. Qed.

Lemma good_scale_intro k :
  canonical k -> k <> 0 -> ~ In k roots_of_unity -> good_scale k = true.
Proof.
  intros Hk H0 Hr. unfold good_scale.
  apply andb_true_iff. split; apply negb_true_iff.
  - now apply Z.eqb_neq.
  - destruct (existsb _ _) eqn:E; [|reflexivity].
    apply existsb_exists in E as (x & Hx & Ex). apply Z.eqb_eq in Ex.
    subst x. contradiction.
Qed.

Lemma recovery_ordered z0 z1 jj d0 d1 k :
  canonical z0 -> canonical z1 -> In jj position_pairs ->
  vanishes_at (A4 z0 z1 1 0) (fst jj) (snd jj) = true ->
  canonical d0 -> canonical d1 -> good_scale k = true -> canonical k ->
  frecovered (Finite.recover (A4 d0 d1 0 0) [fst jj; snd jj] (A4 z0 z1 1 0) k)
    = Ret (Some (A4 d0 d1 0 0)).
Proof.
  intros Hz0 Hz1 Hjj Hv Hd0 Hd1 Hg Hk.
  pose proof recovery_check_all as H.
  rewrite forallb_forall in H. specialize (H z0 (canonical_cases z0 Hz0)).
  rewrite forallb_forall in H. specialize (H z1 (canonical_cases z1 Hz1)).
  rewrite forallb_forall in H. specialize (H jj Hjj).
  unfold recovery_check in H. rewrite Hv in H.
  rewrite forallb_forall in H. specialize (H d0 (canonical_cases d0 Hd0)).
  rewrite forallb_forall in H. specialize (H d1 (canonical_cases d1 Hd1)).
  rewrite forallb_forall in H. specialize (H k (canonical_cases k Hk)).
  rewrite Hg in H. unfold returns_poly in H.
  destruct (frecovered _) as [[q|]| |]; try discriminate.
  apply poly_eqb_eq in H. now subst q.
Qed.

(** X11. Recovery for every pair of lost positions. However the two lost
    positions are chosen, with the monic quadratic whose transform is 0
    exactly at them, the run returns the data, for all data [d0, d1] and
    every scale factor that is neither 0 nor a fourth root of unity. *)
Theorem finite_recovery_general (z0 z1 d0 d1 k : Z) (j1 j2 : idx)
    (e : Finite.poly) :
  canonical z0 -> canonical z1 -> canonical d0 -> canonical d1 -> canonical k ->
  j1 <> j2 ->
  Finite.eval_from_poly (A4 z0 z1 1 0) = Ret e ->
  (forall j, get e j = 0 <-> j = j1 \/ j = j2) ->
  k <> 0 -> ~ In k roots_of_unity ->
  frecovered (Finite.recover (A4 d0 d1 0 0) [j1; j2] (A4 z0 z1 1 0) k)
    = Ret (Some (A4 d0 d1 0 0)).
Proof.
  intros Hz0 Hz1 Hd0 Hd1 Hk Hne He Hroots Hk0 Hkr.
  pose proof (vanishes_at_intro _ _ _ _ He Hroots) as Hv.
  pose proof (good_scale_intro k Hk Hk0 Hkr) as Hg.
  destruct (position_pairs_complete j1 j2 Hne) as [Hin|Hin].
  - now apply (recovery_ordered z0 z1 (j1, j2)).
  - rewrite recover_lost_swap. rewrite vanishes_at_swap in Hv.
    now apply (recovery_ordered z0 z1 (j2, j1)).
Qed.

Lemma finite_recovery_general_witness :
  frecovered (Finite.recover (A4 5 7 0 0) [J3; J0] (A4 13 3 1 0) 6)
    = Ret (Some (A4 5 7 0 0)).
Proof.
  assert (C : forall a, 0 <= a < 17 -> canonical a)
    by (intros a H; exact H).
  assert (Hr : forall j, get (A4 0 7 11 0) j = 0 <-> j = J3 \/ j = J0).
  { intros j; destruct j; cbn; split; intros H;
      try discriminate; auto; destruct H; discriminate. }
  assert (Hk : ~ In 6 roots_of_unity) by (cbn; lia).
  exact (finite_recovery_general 13 3 5 7 6 J3 J0 (A4 0 7 11 0)
           (C 13 ltac:(lia)) (C 3 ltac:(lia)) (C 5 ltac:(lia)) (C 7 ltac:(lia))
           (C 6 ltac:(lia)) ltac:(discriminate) eq_refl Hr ltac:(lia) Hk).
Defined.

Lemma root_scale_check_all :
  forallb (fun k => forallb (fun d0 => forallb (root_scale_check k d0) residues)
                            residues) roots_of_unity = true /\
  forallb (fun d0 => forallb (zero_scale_check d0) residues) residues = true.
Proof. split; vm_compute; reflexivity. Qed.

(** X12. A scale factor that is 0 or a fourth root of unity is not detected:
    the run raises no failure. With a root of unity it returns the data
    only when the data are [0, 0]; with 0 it returns [d0, 0]. *)
Theorem finite_bad_scale_silent (d0 d1 k : Z) :
  canonical d0 -> canonical d1 -> In k roots_of_unity ->
  (exists q,
     frecovered (Finite.recover (A4 d0 d1 0 0) [J1; J2] Finite.zero_poly k)
       = Ret (Some q) /\
     (q = A4 d0 d1 0 0 <-> d0 = 0 /\ d1 = 0)) /\
  frecovered (Finite.recover (A4 d0 d1 0 0) [J1; J2] Finite.zero_poly 0)
    = Ret (Some (A4 d0 0 0 0)).
Proof.
  intros Hd0 Hd1 Hk. destruct root_scale_check_all as [Hr Hz]. split.
  - clear Hz. rewrite forallb_forall in Hr. specialize (Hr k Hk).
    rewrite forallb_forall in Hr. specialize (Hr d0 (canonical_cases d0 Hd0)).
    rewrite forallb_forall in Hr. specialize (Hr d1 (canonical_cases d1 Hd1)).
    unfold root_scale_check in Hr.
    destruct (frecovered _) as [[q|]| |]; try discriminate.
    exists q. split; [reflexivity|]. apply eqb_prop in Hr. split.
    + intros ->. assert (E : poly_eqb (A4 d0 d1 0 0) (A4 d0 d1 0 0) = true)
        by (unfold poly_eqb; cbn [at0 at1 at2 at3]; now rewrite !Z.eqb_refl).
      rewrite E in Hr. symmetry in Hr.
      apply andb_true_iff in Hr as [H0 H1].
      now rewrite Z.eqb_eq in H0, H1.
    + intros [-> ->]. cbn in Hr. now apply poly_eqb_eq.
  - clear Hr. rewrite forallb_forall in Hz.
    specialize (Hz d0 (canonical_cases d0 Hd0)).
    rewrite forallb_forall in Hz. specialize (Hz d1 (canonical_cases d1 Hd1)).
    unfold zero_scale_check, returns_poly in Hz.
    destruct (frecovered _) as [[q|]| |]; try discriminate.
    apply poly_eqb_eq in Hz. now subst q.
Qed.

Lemma finite_bad_scale_silent_witness :
  exists q,
    frecovered (Finite.recover (A4 5 7 0 0) [J1; J2] Finite.zero_poly 4)
      = Ret (Some q) /\
    (q = A4 5 7 0 0 <-> 5 = 0 /\ 7 = 0).
Proof.
  assert (H5 : canonical 5) by (unfold canonical, Finite.MOD; lia).
  assert (H7 : canonical 7) by (unfold canonical, Finite.MOD; lia).
  assert (Hk : In 4 roots_of_unity) by (cbn; auto).
  exact (proj1 (finite_bad_scale_silent 5 7 4 H5 H7 Hk)).
Defined.

(** * Further properties of main.c *)

Lemma chk_comm {A : Type} x y (f : Z -> Z -> outcome A) :
  (u <- chk x ;; v <- chk y ;; f u v) = (v <- chk y ;; u <- chk x ;; f u v).
Proof. unfold chk. destruct (in_int x), (in_int y); reflexivity. Qed.

(** X13. [add] and [mul] are commutative, overflow included. *)
Theorem complex_commutative (a b : complex) :
  Complex.add a b = Complex.add b a /\ Complex.mul a b = Complex.mul b a.
Proof.
  split.
  - unfold add, iadd. now rewrite (Z.add_comm (re a)), (Z.add_comm (im a)).
  - unfold mul, imul, isub, iadd.
    rewrite (Z.mul_comm (re b) (re a)), (Z.mul_comm (im b) (im a)).
    rewrite (Z.mul_comm (re b) (im a)), (Z.mul_comm (im b) (re a)).
    destruct (chk (re a * re b)) as [rr| |]; cbn [bind]; try reflexivity.
    destruct (chk (im a * im b)) as [ii| |]; cbn [bind]; try reflexivity.
    destruct (chk (rr - ii)) as [r| |]; cbn [bind]; try reflexivity.
    rewrite chk_comm.
    destruct (chk (im a * re b)) as [x| |]; cbn [bind]; try reflexivity.
    destruct (chk (re a * im b)) as [y| |]; cbn [bind]; try reflexivity.
    now rewrite Z.add_comm.
Qed.

(** X14. The product of a number with its conjugate, which [div] divides
    by, is real: its imaginary part is 0 and its real part is the sum of
    the squares of the parts, positive unless the number is [{0,0}]. *)
Theorem conjugate_product_is_real (b c : complex) :
  (bc <- Complex.cconj b ;; Complex.mul b bc) = Ret c ->
  im c = 0 /\ re c = re b * re b + im b * im b /\
  (b <> zero -> 0 < re c).
Proof.
  intros H. apply bind_inv in H as (bc & Hbc & H).
  apply cconj_inv in Hbc as ->. apply cmul_inv in H as (-> & _).
  unfold gmul, gconj; cbn [re im]. split; [ring|]. split; [ring|].
  intros Hb. apply nonzero_norm in Hb. lia.
Qed.

Lemma conjugate_product_is_real_witness :
  im (new_complex 25 0) = 0 /\
  re (new_complex 25 0) = re (new_complex 3 (-4)) * re (new_complex 3 (-4))
                          + im (new_complex 3 (-4)) * im (new_complex 3 (-4)) /\
  (new_complex 3 (-4) <> zero -> 0 < re (new_complex 25 0)).
Proof.
  apply (conjugate_product_is_real (new_complex 3 (-4)) (new_complex 25 0)).
  reflexivity.
Defined.

(** Inverts one call and keeps the range of its result. *)
Ltac c_inv_range H R :=
  let x := fresh "x" in
  let Hx := fresh "Hx" in
  apply bind_inv in H as (x & Hx & H);
  first [ apply cadd_inv in Hx as (-> & R)
        | apply csub_inv in Hx as (-> & R) ].

(** What the inverse transform returns, four times, is the butterfly of
    its argument, and the argument's parts are [int]s. *)
Lemma cinverse_inv e c :
  poly_from_eval e = Ret c ->
  gmul (at0 c) four = gadd (gadd (at0 e) (at2 e)) (gadd (at1 e) (at3 e)) /\
  gmul (at1 c) four = gsub (gsub (at0 e) (at2 e)) (gmul i (gsub (at1 e) (at3 e))) /\
  gmul (at2 c) four = gsub (gadd (at0 e) (at2 e)) (gadd (at1 e) (at3 e)) /\
  gmul (at3 c) four = gadd (gsub (at0 e) (at2 e)) (gmul i (gsub (at1 e) (at3 e))) /\
  between4 INT_MIN INT_MAX e.
Proof.
  unfold poly_from_eval. intros H.
  c_inv_range H R1. c_inv_range H R2. c_inv_range H R3. c_inv_range H R4.
  do 6 c_inv H.
  unfold for4 in H; cbn [get set at0 at1 at2 at3] in H.
  apply bind_inv in H as (s0 & Hs0 & H).
  apply bind_inv in Hs0 as (q0 & Hq0 & Hs0). injection Hs0 as <-.
  cbn [get set at0 at1 at2 at3] in H.
  apply bind_inv in H as (s1 & Hs1 & H).
  apply bind_inv in Hs1 as (q1 & Hq1 & Hs1). injection Hs1 as <-.
  cbn [get set at0 at1 at2 at3] in H.
  apply bind_inv in H as (s2 & Hs2 & H).
  apply bind_inv in Hs2 as (q2 & Hq2 & Hs2). injection Hs2 as <-.
  cbn [get set at0 at1 at2 at3] in H.
  apply bind_inv in H as (q3 & Hq3 & H). injection H as <-.
  apply cdiv_inv in Hq0 as (Hq0 & _). apply cdiv_inv in Hq1 as (Hq1 & _).
  apply cdiv_inv in Hq2 as (Hq2 & _). apply cdiv_inv in Hq3 as (Hq3 & _).
  cbn [at0 at1 at2 at3]. repeat (split; [assumption|]).
  destruct e as [[a0 b0] [a1 b1] [a2 b2] [a3 b3]].
  unfold between4, between, gadd, gsub in *; cbn [re im at0 at1 at2 at3] in *.
  unfold INT_MIN, INT_MAX in *. lia.
Qed.

(** X15. The forward transform undoes the inverse transform wherever the
    inverse transform returns. *)
Theorem complex_inverse_then_forward (e c : Complex.poly) :
  Complex.poly_from_eval e = Ret c -> Complex.eval_from_poly c = Ret e.
Proof.
  intros H. apply cinverse_inv in H as (H0 & H1 & H2 & H3 & R).
  assert (E : cdft4 c = e).
  { rewrite cdft4_unfold.
    apply gmul_four in H0 as (? & ?). apply gmul_four in H1 as (? & ?).
    apply gmul_four in H2 as (? & ?). apply gmul_four in H3 as (? & ?).
    destruct e as [[a0 b0] [a1 b1] [a2 b2] [a3 b3]].
    destruct c as [[u0 v0] [u1 v1] [u2 v2] [u3 v3]].
    unfold gadd, gsub, gmul, i in *; cbn [re im at0 at1 at2 at3] in *.
    f_equal; apply complex_eq; cbn [re im]; lia. }
  rewrite <- E. apply ceval_exact. now rewrite E.
Qed.

Lemma complex_inverse_then_forward_witness :
  Complex.eval_from_poly Complex.data_poly
  = Ret (A4 (new_complex 12 0) (new_complex 5 7)
            (new_complex (-2) 0) (new_complex 5 (-7))).
Proof.
  apply complex_inverse_then_forward. reflexivity.
Defined.

(** [div] by four, exact or not. *)
Lemma cdiv_four_any a :
  between (-536870912) 536870911 a ->
  div a four =
    if (Z.rem (re a) 4 =? 0) && (Z.rem (im a) 4 =? 0)
    then Ret (new_complex (Z.quot (re a) 4) (Z.quot (im a) 4))
    else Abort.
Proof.
  destruct a as [x y]. unfold between; cbn [re im]. intros [Hx Hy].
  unfold div. c_unfold. c_run. unfold idiv.
  change (4 * 4 - 0 * - 0 =? 0) with false. cbv iota.
  replace (x * 4 - y * - 0) with (x * 4) by lia.
  replace (x * - 0 + y * 4) with (y * 4) by lia.
  change (4 * 4 - 0 * - 0) with (4 * 4).
  rewrite !Z.quot_mul_cancel_r by lia.
  pose proof (Z.quot_rem' x 4) as Ex. pose proof (Z.quot_rem' y 4) as Ey.
  pose proof (Z.rem_bound_abs x 4 ltac:(lia)) as Bx.
  pose proof (Z.rem_bound_abs y 4 ltac:(lia)) as By.
  c_run. unfold equal; cbn [re im].
  destruct (Z.eqb_spec (Z.rem x 4) 0) as [Rx|Rx];
    destruct (Z.eqb_spec (Z.rem y 4) 0) as [Ry|Ry]; cbn [andb].
  - replace (x =? _) with true by (symmetry; apply Z.eqb_eq; lia).
    replace (y =? _) with true by (symmetry; apply Z.eqb_eq; lia).
    reflexivity.
  - replace (y =? _) with false by (symmetry; apply Z.eqb_neq; lia).
    now rewrite andb_false_r.
  - replace (x =? _) with false by (symmetry; apply Z.eqb_neq; lia).
    reflexivity.
  - replace (x =? _) with false by (symmetry; apply Z.eqb_neq; lia).
    reflexivity.
Qed.

Ltac split_rem :=
  match goal with
  | |- context [Z.rem ?x 4 =? 0] =>
      destruct (Z.eqb_spec (Z.rem x 4) 0); [|reflexivity]
  end.

(** X16. On a vector with parts of at most [2^27 - 1] in absolute value the
    inverse transform returns [c] when the vector is the reference
    transform of [c], and fails the self-check of [div] when it is the
    transform of no polynomial with integer parts. *)
Theorem inverse_fails_off_image (e : Complex.poly) :
  between4 (-134217727) 134217727 e ->
  (forall c, e = cdft4 c -> Complex.poly_from_eval e = Ret c) /\
  ((forall c, e <> cdft4 c) -> Complex.poly_from_eval e = Abort).
Proof.
  intros He. split.
  - intros c ->. apply cinverse_ok. rewrite cdft4_unfold in He.
    destruct c as [[a0 b0] [a1 b1] [a2 b2] [a3 b3]].
    unfold between4, between, gadd, gsub, gmul, i in *;
      cbn [re im at0 at1 at2 at3] in *. lia.
  - intros Hno.
    destruct e as [[a0 b0] [a1 b1] [a2 b2] [a3 b3]].
    unfold between4, between in He; cbn [re im at0 at1 at2 at3] in He.
    destruct He as (H0 & H1 & H2 & H3).
    unfold poly_from_eval; cbn [at0 at1 at2 at3]. c_unfold. c_run.
    unfold for4; cbn [get set at0 at1 at2 at3].
    rewrite cdiv_four_any by (unfold between; cbn [re im]; lia). cbn [re im].
    split_rem.
    split_rem.
    cbn [andb bind get set at0 at1 at2 at3].
    rewrite cdiv_four_any by (unfold between; cbn [re im]; lia). cbn [re im].
    split_rem.
    split_rem.
    cbn [andb bind get set at0 at1 at2 at3].
    rewrite cdiv_four_any by (unfold between; cbn [re im]; lia). cbn [re im].
    split_rem.
    split_rem.
    cbn [andb bind get set at0 at1 at2 at3].
    rewrite cdiv_four_any by (unfold between; cbn [re im]; lia). cbn [re im].
    split_rem.
    split_rem.
    cbn [andb bind get set at0 at1 at2 at3].
    match goal with
    | |- Ret (A4 ?c0 ?c1 ?c2 ?c3) = _ => exfalso; apply (Hno (A4 c0 c1 c2 c3))
    end.
    rewrite cdft4_unfold. unfold gadd, gsub, gmul, i; cbn [re im at0 at1 at2 at3].
    repeat match goal with
           | H : Z.rem ?x 4 = 0 |- _ =>
               let E := fresh "E" in
               pose proof (Z.quot_rem' x 4) as E; rewrite H in E; clear H
           end.
    f_equal; apply complex_eq; cbn [re im]; lia.
Qed.

Lemma inverse_fails_off_image_witness :
  Complex.poly_from_eval
    (cdft4 Complex.data_poly) = Ret Complex.data_poly.
Proof.
  assert (He : between4 (-134217727) 134217727 (cdft4 Complex.data_poly))
    by (repeat split; vm_compute; discriminate).
  exact (proj1 (inverse_fails_off_image _ He) _ eq_refl).
Defined.

(** X17. The forward transform is linear wherever the calls return: the
    transform of a coefficient-wise sum is the sum of the transforms. *)
Theorem complex_forward_is_linear (p q s e f g : Complex.poly) :
  cpadd p q = Ret s ->
  Complex.eval_from_poly p = Ret e ->
  Complex.eval_from_poly q = Ret f ->
  Complex.eval_from_poly s = Ret g ->
  cpadd e f = Ret g.
Proof.
  intros Hs He Hf Hg. pose proof (ceval_range _ _ Hg) as R.
  apply ceval_inv in He as ->. apply ceval_inv in Hf as ->.
  apply ceval_inv in Hg. subst g.
  unfold cpadd in Hs. do 4 c_inv Hs. injection Hs as <-.
  rewrite !cdft4_unfold in *.
  destruct p as [[a0 b0] [a1 b1] [a2 b2] [a3 b3]].
  destruct q as [[u0 v0] [u1 v1] [u2 v2] [u3 v3]].
  unfold between4, between, gadd, gsub, gmul, i in *;
    cbn [re im at0 at1 at2 at3] in *.
  unfold cpadd; cbn [at0 at1 at2 at3]. c_unfold. c_run.
  apply Ret_A4_eq; apply complex_eq; cbn [re im]; lia.
Qed.

Lemma complex_forward_is_linear_witness :
  cpadd (A4 (new_complex 12 0) (new_complex 5 7) (new_complex (-2) 0) (new_complex 5 (-7)))
        (A4 (new_complex 2 (-2)) zero zero (new_complex (-2) (-2)))
  = Ret (A4 (new_complex 14 (-2)) (new_complex 5 7) (new_complex (-2) 0)
            (new_complex 3 (-9))).
Proof.
  apply (complex_forward_is_linear Complex.data_poly Complex.zero_poly
           (A4 (new_complex 5 (-1)) (new_complex 8 (-1)) (new_complex 1 0) zero));
    reflexivity.
Defined.

(** [div] returns a quotient that is known. *)
Lemma cdiv_exact a b q Q F :
  a = gmul q b -> 1 <= Q -> within Q q -> within F b -> b <> zero ->
  4 * (Q * (F * F)) <= INT_MAX ->
  div a b = Ret q.
Proof. intros ->. apply cdiv_ok. Qed.

(** Runs a forward transform whose outputs are in range. *)
Ltac c_eval :=
  rewrite ceval_exact
    by (rewrite cdft4_unfold;
        unfold between4, between, gadd, gsub, gmul, i, zero_poly, zero, two;
        cbn [re im at0 at1 at2 at3]; in_range);
  rewrite cdft4_unfold; unfold gadd, gsub, gmul, i;
  cbn [bind re im at0 at1 at2 at3].

(** The side conditions of a known quotient. *)
Ltac c_side :=
  first [ discriminate
        | apply complex_eq; unfold gmul; cbn [re im]; lia
        | unfold within, between; cbn [re im]; lia
        | in_range ].

(** X18. Recovery of all data. The run of main.c on the data [d0, d1], with
    the lost positions 1 and 2, its zero polynomial and the scale factor 2,
    returns the data for all complex integers [d0] and [d1] with parts of
    at most [2^22] in absolute value. *)
Theorem complex_recovery_general (d0 d1 : complex) :
  within 4194304 d0 -> within 4194304 d1 ->
  crecovered (Complex.recover (A4 d0 d1 zero zero) [J1; J2] Complex.zero_poly two)
    = Ret (Some (A4 d0 d1 zero zero)).
Proof.
  destruct d0 as [a0 b0], d1 as [a1 b1].
  unfold within, between; cbn [re im]. intros [Ha0 Hb0] [Ha1 Hb1].
  unfold crecovered, recover. cbv zeta.
  unfold zero at 1 2; cbn [re im].
  c_eval. cbn [fold_left set get at0 at1 at2 at3].
  change (eval_from_poly zero_poly)
    with (Ret (A4 (new_complex 2 (-2)) zero zero (new_complex (-2) (-2)))).
  cbn [bind]. unfold for4 at 1. cbn [get set at0 at1 at2 at3 fresh].
  unfold zero at 1 2 3 4. c_unfold. c_run.
  (* interpolation of the masked evaluations *)
  unfold poly_from_eval at 1. cbn [at0 at1 at2 at3]. c_unfold. c_run.
  unfold for4 at 1. cbn [get set at0 at1 at2 at3].
  rewrite (cdiv_four _ b0 (- a0)) by (cbn [re im]; lia).
  cbn [bind get set at0 at1 at2 at3].
  rewrite (cdiv_four _ (a0 + b0 + b1) (b0 - a0 - a1)) by (cbn [re im]; lia).
  cbn [bind get set at0 at1 at2 at3].
  rewrite (cdiv_four _ (a0 + a1 + b1) (b0 + b1 - a1)) by (cbn [re im]; lia).
  cbn [bind get set at0 at1 at2 at3].
  rewrite (cdiv_four _ a1 b1) by (cbn [re im]; lia).
  cbn [bind get set at0 at1 at2 at3].
  (* scaling *)
  change (scale zero_poly two)
    with (Ret (A4 (new_complex 0 (-1)) (new_complex 2 (-2))
                  (new_complex 4 0) (new_complex 0 0))).
  unfold scale at 1. cbv zeta. cbn [set at0 at1 at2 at3].
  unfold two at 1 2 3 4 5. c_unfold. c_run.
  c_eval.
  change (eval_from_poly (A4 (new_complex 0 (-1)) (new_complex 2 (-2))
                             (new_complex 4 0) (new_complex 0 0)))
    with (Ret (A4 (new_complex 6 (-3)) (new_complex (-2) 1)
                  (new_complex 2 1) (new_complex (-6) (-3)))).
  cbn [bind].
  (* division in evaluation form *)
  unfold for4 at 1. cbn [get set at0 at1 at2 at3 fresh].
  rewrite (cdiv_exact _ _ (new_complex (a0 + 2 * a1) (b0 + 2 * b1)) 12582912 6)
    by c_side.
  cbn [bind get set at0 at1 at2 at3].
  rewrite (cdiv_exact _ _ (new_complex (a0 - 2 * b1) (b0 + 2 * a1)) 12582912 6)
    by c_side.
  cbn [bind get set at0 at1 at2 at3].
  rewrite (cdiv_exact _ _ (new_complex (a0 - 2 * a1) (b0 - 2 * b1)) 12582912 6)
    by c_side.
  cbn [bind get set at0 at1 at2 at3].
  rewrite (cdiv_exact _ _ (new_complex (a0 + 2 * b1) (b0 - 2 * a1)) 12582912 6)
    by c_side.
  cbn [bind get set at0 at1 at2 at3].
  (* interpolation of the quotient *)
  unfold poly_from_eval at 1. cbn [at0 at1 at2 at3]. c_unfold. c_run.
  unfold for4 at 1. cbn [get set at0 at1 at2 at3].
  rewrite (cdiv_four _ a0 b0) by (cbn [re im]; lia).
  cbn [bind get set at0 at1 at2 at3].
  rewrite (cdiv_four _ (2 * a1) (2 * b1)) by (cbn [re im]; lia).
  cbn [bind get set at0 at1 at2 at3].
  rewrite (cdiv_four _ 0 0) by (cbn [re im]; lia).
  cbn [bind get set at0 at1 at2 at3].
  rewrite (cdiv_four _ 0 0) by (cbn [re im]; lia).
  cbn [bind get set at0 at1 at2 at3].
  (* unscaling *)
  unfold unscale. cbv zeta. cbn [set at0 at1 at2 at3].
  rewrite (cdiv_exact _ _ (new_complex a1 b1) 4194304 2) by c_side.
  cbn [bind].
  change (mul (new_complex 2 0) (new_complex 2 0)) with (Ret (new_complex 4 0)).
  cbn [bind].
  rewrite (cdiv_exact _ _ (new_complex 0 0) 1 4) by c_side.
  cbn [bind].
  change (mul (new_complex 4 0) (new_complex 2 0)) with (Ret (new_complex 8 0)).
  cbn [bind].
  rewrite (cdiv_exact _ _ (new_complex 0 0) 1 8) by c_side.
  cbn [bind].
  reflexivity.
Qed.

Lemma complex_recovery_general_witness :
  crecovered (Complex.recover
                (A4 (new_complex (-3) 1000) (new_complex 4194304 (-7)) zero zero)
                [J1; J2] Complex.zero_poly two)
    = Ret (Some (A4 (new_complex (-3) 1000) (new_complex 4194304 (-7)) zero zero)).
Proof.
  apply complex_recovery_general; unfold within, between; cbn; lia.
Defined.


(** X19. With a scale factor that is [{0,0}] or a fourth root of unity the
    run of main.c never returns, whatever the data polynomial is: a
    divisor is [{0,0}]. *)
Theorem complex_bad_scale_fails (dp : Complex.poly) (k : complex) :
  In k [new_complex 1 0; i; new_complex (-1) 0; new_complex 0 (-1); zero] ->
  forall r, Complex.recover dp [J1; J2] Complex.zero_poly k <> Ret r.
Proof.
  intros Hk r H. unfold recover in H. cbv zeta in H.
  apply bind_inv in H as (data_eval & _ & H).
  apply bind_inv in H as (zero_poly_eval & _ & H).
  apply bind_inv in H as (ez_eval & _ & H).
  apply bind_inv in H as (dz_poly & _ & H).
  apply bind_inv in H as (dz_scaled & _ & H).
  apply bind_inv in H as (zp & Hzp & H).
  apply bind_inv in H as (dse & _ & H).
  apply bind_inv in H as (zse & Hzse & H).
  apply bind_inv in H as (qe & Hq & H).
  apply bind_inv in H as (rp & _ & H).
  apply bind_inv in H as (rp0 & Hun & _).
  unfold for4 in Hq.
  apply bind_inv in Hq as (s0 & Hs0 & Hq). apply bind_inv in Hs0 as (q0 & D0 & _).
  apply bind_inv in Hq as (s1 & Hs1 & Hq). apply bind_inv in Hs1 as (q1 & D1 & _).
  apply bind_inv in Hq as (s2 & Hs2 & Hq). apply bind_inv in Hs2 as (q2 & D2 & _).
  apply bind_inv in Hq as (q3 & D3 & _).
  apply cdiv_inv in D0 as (_ & N0). apply cdiv_inv in D1 as (_ & N1).
  apply cdiv_inv in D2 as (_ & N2). apply cdiv_inv in D3 as (_ & N3).
  unfold unscale in Hun. cbv zeta in Hun.
  apply bind_inv in Hun as (a1 & Da & _). apply cdiv_inv in Da as (_ & Na).
  cbn [In] in Hk.
  repeat (destruct Hk as [<-|Hk]);
    try contradiction; try (now contradiction Na);
    vm_compute in Hzp; injection Hzp as <-;
    vm_compute in Hzse; injection Hzse as <-;
    cbn [get at0 at1 at2 at3] in *; unfold zero in *; congruence.
Qed.

Lemma complex_bad_scale_fails_witness :
  In (new_complex 1 0)
     [new_complex 1 0; i; new_complex (-1) 0; new_complex 0 (-1); zero] /\
  Complex.recover Complex.data_poly [J1; J2] Complex.zero_poly
    (new_complex 1 0) <> Ret nil.
Proof.
  split; [cbn; auto |].
  apply (complex_bad_scale_fails Complex.data_poly (new_complex 1 0)).
  cbn. auto.
Defined.

(** * Printing *)

Lemma uint_numeric d : all_numeric (NilEmpty.string_of_uint d) = true.
Proof. induction d; cbn [NilEmpty.string_of_uint all_numeric]; auto. Qed.

Lemma nilzero_numeric d : all_numeric (NilZero.string_of_uint d) = true.
Proof.
  destruct d; try reflexivity;
    match goal with
    | |- all_numeric (NilZero.string_of_uint ?u) = true =>
        change (NilZero.string_of_uint u) with (NilEmpty.string_of_uint u);
        apply uint_numeric
    end.
Qed.

Lemma dec_numeric n : all_numeric (dec n) = true.
Proof.
  unfold dec, NilZero.string_of_int.
  destruct (Z.to_int n) as [d|d].
  - apply nilzero_numeric.
  - cbn [all_numeric]. apply andb_true_iff. split; [reflexivity|].
    apply nilzero_numeric.
Qed.

Lemma dec_nonempty n : dec n <> EmptyString.
Proof.
  unfold dec, NilZero.string_of_int, NilZero.string_of_uint.
  destruct (Z.to_int n) as [d|d]; destruct d; discriminate.
Qed.

Lemma to_int_not_nil n :
  Z.to_int n <> Decimal.Pos Decimal.Nil /\ Z.to_int n <> Decimal.Neg Decimal.Nil.
Proof.
  destruct n as [|p|p]; cbn; split; try discriminate;
    intros [= E]; now apply (DecimalPos.Unsigned.to_uint_nonnil p).
Qed.

(** [%d] writes different numbers differently. *)
Lemma dec_inj a b : dec a = dec b -> a = b.
Proof.
  unfold dec. intros E. apply (f_equal NilZero.int_of_string) in E.
  destruct (to_int_not_nil a), (to_int_not_nil b).
  rewrite !NilZero.isi in E by assumption.
  injection E as E. now apply DecimalZ.to_int_inj.
Qed.

Lemma numeric_absent c x :
  all_numeric x = true -> sign_or_digit c = false -> occurs c x = false.
Proof.
  intros Hx Hc. induction x as [|a x IH]; [reflexivity|].
  cbn [all_numeric occurs] in *. apply andb_true_iff in Hx as [Ha Hx].
  rewrite (IH Hx), orb_false_r. apply Ascii.eqb_neq. congruence.
Qed.

Lemma occurs_app c x y : occurs c (x ++ y) = occurs c x || occurs c y.
Proof.
  induction x as [|a x IH]; [reflexivity|].
  cbn [append occurs]. now rewrite IH, orb_assoc.
Qed.

Lemma append_empty_r x : (x ++ "")%string = x.
Proof. induction x as [|a x IH]; [reflexivity|]. cbn. now rewrite IH. Qed.

Lemma append_inv_head x y y' : (x ++ y)%string = (x ++ y')%string -> y = y'.
Proof.
  induction x as [|a x IH]; [auto|]. cbn [append]. intros [= E]. auto.
Qed.

(** Two strings that agree up to a separator which occurs in neither. *)
Lemma app_sep_inj (c : ascii) (x x' y y' : string) :
  occurs c x = false -> occurs c x' = false ->
  (x ++ String c y)%string = (x' ++ String c y')%string ->
  x = x' /\ y = y'.
Proof.
  revert x'. induction x as [|a x IH]; intros x' Hx Hx' E.
  - destruct x' as [|a' x']; cbn [append] in E.
    + injection E as ->. auto.
    + injection E as <- _. cbn [occurs] in Hx'.
      now rewrite Ascii.eqb_refl in Hx'.
  - destruct x' as [|a' x']; cbn [append] in E.
    + injection E as -> _. cbn [occurs] in Hx.
      now rewrite Ascii.eqb_refl in Hx.
    + injection E as <- E. cbn [occurs] in Hx, Hx'.
      apply orb_false_iff in Hx as [_ Hx]. apply orb_false_iff in Hx' as [_ Hx'].
      destruct (IH x' Hx Hx' E) as [-> ->]. auto.
Qed.

Lemma print_c_form a s :
  print_c a = Ret s ->
  (im a = 0 /\ s = dec (re a)) \/
  exists sgn w,
    s = (dec (re a) ++ imaginary_text sgn w)%string /\
    ((sgn = "+"%char /\ ((im a = 1 /\ w = ""%string) \/
                         (1 < im a /\ w = dec (im a)))) \/
     (sgn = "-"%char /\ ((im a = -1 /\ w = ""%string) \/
                         (im a < -1 /\ w = dec (- im a))))).
Proof.
  unfold print_c. cbv zeta.
  destruct (Z.eqb_spec (im a) 0) as [E0|N0]; cbn [negb].
  { intros [= <-]. now left. }
  intros H. right. destruct (Z.gtb_spec (im a) 0) as [Hp|Hn].
  - exists "+"%char.
    destruct (Z.eqb_spec (im a) 1) as [E1|N1]; injection H as <-.
    + exists ""%string. split; [reflexivity|]. left. auto.
    + exists (dec (im a)). split; [reflexivity|]. left. split; [reflexivity|].
      right. split; [lia|reflexivity].
  - exists "-"%char. destruct (Z.eqb_spec (im a) (-1)) as [E1|N1].
    + injection H as <-. exists ""%string. split; [reflexivity|]. right. auto.
    + apply bind_inv in H as (n & Hn' & H). injection H as <-.
      unfold ineg in Hn'. apply chk_inv in Hn' as (-> & _).
      exists (dec (- im a)). split; [reflexivity|]. right. split; [reflexivity|].
      right. split; [lia|reflexivity].
Qed.

Lemma imaginary_text_inj sgn w sgn' w' :
  (w = ""%string \/ exists n, w = dec n) ->
  (w' = ""%string \/ exists n, w' = dec n) ->
  imaginary_text sgn w = imaginary_text sgn' w' -> sgn = sgn' /\ w = w'.
Proof.
  intros Hw Hw'. unfold imaginary_text. intros [= -> E]. split; [reflexivity|].
  assert (A : forall v, (v = ""%string \/ exists n, v = dec n) ->
                        occurs "i" v = false).
  { intros v [->|[n ->]]; [reflexivity|].
    apply numeric_absent; [apply dec_numeric | reflexivity]. }
  now apply (app_sep_inj "i" w w' "" "") in E; auto.
Qed.

(** X20. [print_c] writes different numbers differently. *)
Theorem print_c_injective (a b : complex) (s : string) :
  print_c a = Ret s -> print_c b = Ret s -> a = b.
Proof.
  intros Ha Hb. apply print_c_form in Ha, Hb.
  assert (Sp : forall n, occurs " " (dec n) = false)
    by (intros n; apply numeric_absent; [apply dec_numeric | reflexivity]).
  destruct Ha as [[Ia ->]|(sa & wa & -> & Ca)];
    destruct Hb as [[Ib Eb]|(sb & wb & Eb & Cb)].
  - apply dec_inj in Eb. apply complex_eq; congruence.
  - exfalso. pose proof (Sp (re a)) as H. rewrite Eb in H.
    unfold imaginary_text in H. rewrite occurs_app in H.
    cbn [occurs] in H. rewrite Ascii.eqb_refl in H.
    now rewrite orb_true_r in H.
  - exfalso. pose proof (Sp (re b)) as H. rewrite <- Eb in H.
    unfold imaginary_text in H. rewrite occurs_app in H.
    cbn [occurs] in H. rewrite Ascii.eqb_refl in H.
    now rewrite orb_true_r in H.
  - unfold imaginary_text in Eb at 1 2.
    apply app_sep_inj in Eb as [Er Ei]; [|apply Sp..].
    apply dec_inj in Er.
    assert (Ei' : imaginary_text sa wa = imaginary_text sb wb)
      by (unfold imaginary_text; now rewrite Ei).
    apply imaginary_text_inj in Ei' as [Es Ew].
    + subst sb wb. apply complex_eq; [congruence|].
      destruct Ca as [[-> [[? Wa]|[? Wa]]]|[-> [[? Wa]|[? Wa]]]];
        destruct Cb as [[S [[? Wb]|[? Wb]]]|[S [[? Wb]|[? Wb]]]];
        try discriminate S; try lia;
        try (rewrite Wa in Wb; symmetry in Wb; now apply dec_nonempty in Wb);
        try (rewrite Wa in Wb; now apply dec_nonempty in Wb);
        rewrite Wa in Wb; apply dec_inj in Wb; lia.
    + destruct Ca as [[_ [[_ ->]|[_ ->]]]|[_ [[_ ->]|[_ ->]]]]; eauto.
    + destruct Cb as [[_ [[_ ->]|[_ ->]]]|[_ [[_ ->]|[_ ->]]]]; eauto.
Qed.

Lemma print_c_injective_witness :
  print_c (new_complex 5 (-14)) = Ret "5 - 14i"%string /\
  new_complex 5 (-14) = new_complex 5 (-14).
Proof.
  split; [reflexivity|].
  apply (print_c_injective _ _ "5 - 14i"%string); reflexivity.
Defined.

(** X21. [print_c] returns for every number except one whose imaginary part
    is [INT_MIN], which it negates. *)
Theorem print_c_defined (a : complex) :
  INT_MIN <= im a <= INT_MAX ->
  (print_c a = Undef <-> im a = INT_MIN) /\ print_c a <> Abort.
Proof.
  intros Hi. unfold print_c. cbv zeta.
  destruct (Z.eqb_spec (im a) 0) as [E0|N0]; cbn [negb].
  { split; [|discriminate]. split; [discriminate|]. unfold INT_MIN. lia. }
  destruct (Z.gtb_spec (im a) 0) as [Hp|Hn].
  - destruct (Z.eqb_spec (im a) 1); (split; [|discriminate]);
      (split; [discriminate|]); unfold INT_MIN; lia.
  - destruct (Z.eqb_spec (im a) (-1)).
    + split; [|discriminate]. split; [discriminate|]. unfold INT_MIN. lia.
    + unfold ineg. destruct (Z.eq_dec (im a) INT_MIN) as [E|N].
      * rewrite E. split; [|discriminate]. split; auto.
      * rewrite chk_ok by in_range. cbn [bind]. split; [|discriminate].
        split; [discriminate|contradiction].
Qed.

Lemma print_c_defined_witness :
  (print_c (new_complex 0 (-2147483648)) = Undef <->
   im (new_complex 0 (-2147483648)) = INT_MIN) /\
  print_c (new_complex 0 (-2147483648)) <> Abort.
Proof.
  apply print_c_defined. unfold INT_MIN, INT_MAX. cbn. lia.
Defined.

(** The four fields of a printed line determine the line's values. *)
Lemma row_inj (x0 x1 x2 x3 y0 y1 y2 y3 : string) :
  (forall x, In x [x0; x1; x2; x3; y0; y1; y2; y3] ->
             occurs "," x = false /\ occurs "]" x = false) ->
  (x0 ++ ", " ++ x1 ++ ", " ++ x2 ++ ", " ++ x3 ++ "]" ++ newline)%string =
  (y0 ++ ", " ++ y1 ++ ", " ++ y2 ++ ", " ++ y3 ++ "]" ++ newline)%string ->
  x0 = y0 /\ x1 = y1 /\ x2 = y2 /\ x3 = y3.
Proof.
  intros A E. cbn [append] in E.
  assert (C : forall x, In x [x0; x1; x2; x3; y0; y1; y2; y3] ->
                        occurs "," x = false) by (intros x H; now apply A).
  assert (B : forall x, In x [x0; x1; x2; x3; y0; y1; y2; y3] ->
                        occurs "]" x = false) by (intros x H; now apply A).
  apply app_sep_inj in E as [E0 E]; [|apply C; cbn; auto 10..].
  injection E as E.
  apply app_sep_inj in E as [E1 E]; [|apply C; cbn; auto 10..].
  injection E as E.
  apply app_sep_inj in E as [E2 E]; [|apply C; cbn; auto 10..].
  injection E as E.
  apply app_sep_inj in E as [E3 _]; [|apply B; cbn; auto 10..].
  auto.
Qed.

Lemma dec_no_sep n : occurs "," (dec n) = false /\ occurs "]" (dec n) = false.
Proof.
  split; apply numeric_absent; (apply dec_numeric || reflexivity).
Qed.

(** X22. A line of finite.c determines the four values it shows. *)
Theorem finite_line_injective (s : string) (a b : Finite.poly) :
  Finite.print_poly s a = Finite.print_poly s b -> a = b.
Proof.
  unfold Finite.print_poly. intros E. apply append_inv_head in E.
  cbn [append] in E. injection E as E.
  apply row_inj in E as (E0 & E1 & E2 & E3).
  - apply dec_inj in E0, E1, E2, E3. destruct a, b; cbn in *. congruence.
  - intros x Hx. cbn [In] in Hx.
    repeat (destruct Hx as [<-|Hx]; [apply dec_no_sep|]). contradiction.
Qed.

Lemma print_c_no_sep a s :
  print_c a = Ret s -> occurs "," s = false /\ occurs "]" s = false.
Proof.
  intros H. apply print_c_form in H.
  destruct H as [[_ ->]|(sgn & w & -> & C)]; [apply dec_no_sep|].
  assert (W : occurs "," w = false /\ occurs "]" w = false)
    by (destruct C as [[_ [[_ ->]|[_ ->]]]|[_ [[_ ->]|[_ ->]]]];
        (apply dec_no_sep || (split; reflexivity))).
  assert (S : sgn = "+"%char \/ sgn = "-"%char) by (destruct C as [[-> _]|[-> _]]; auto).
  unfold imaginary_text. rewrite !occurs_app. cbn [occurs].
  rewrite !occurs_app. cbn [occurs].
  destruct (dec_no_sep (re a)) as [-> ->], W as [-> ->].
  destruct S as [-> | ->]; split; reflexivity.
Qed.

(** X23. A line of main.c determines the four numbers it shows. *)
Theorem complex_line_injective (s t : string) (a b : poly) :
  print_poly s a = Ret t -> print_poly s b = Ret t -> a = b.
Proof.
  unfold print_poly. intros Ha Hb.
  apply bind_inv in Ha as (a0 & A0 & Ha). apply bind_inv in Ha as (a1 & A1 & Ha).
  apply bind_inv in Ha as (a2 & A2 & Ha). apply bind_inv in Ha as (a3 & A3 & Ha).
  apply bind_inv in Hb as (b0 & B0 & Hb). apply bind_inv in Hb as (b1 & B1 & Hb).
  apply bind_inv in Hb as (b2 & B2 & Hb). apply bind_inv in Hb as (b3 & B3 & Hb).
  injection Ha as <-. injection Hb as E. apply append_inv_head in E.
  cbn [append] in E. injection E as E.
  apply row_inj in E as (E0 & E1 & E2 & E3).
  - subst b0 b1 b2 b3.
    pose proof (print_c_injective _ _ _ A0 B0).
    pose proof (print_c_injective _ _ _ A1 B1).
    pose proof (print_c_injective _ _ _ A2 B2).
    pose proof (print_c_injective _ _ _ A3 B3).
    destruct a, b; cbn in *. congruence.
  - intros x Hx. cbn [In] in Hx.
    repeat (destruct Hx as [<-|Hx]; [eapply print_c_no_sep; eassumption|]).
    contradiction.
Qed.

Lemma complex_line_injective_witness :
  print_poly "Scaled recovered" (A4 (new_complex 5 0) (new_complex 14 0) zero zero)
  = Ret (String.append "  Scaled recovered: [5, 14, 0, 0]" newline) /\
  A4 (new_complex 5 0) (new_complex 14 0) zero zero
  = A4 (new_complex 5 0) (new_complex 14 0) zero zero.
Proof.
  split; [reflexivity|].
  apply (complex_line_injective "Scaled recovered"%string
           (String.append "  Scaled recovered: [5, 14, 0, 0]" newline));
    reflexivity.
Defined.

Lemma finite_line_injective_witness :
  Finite.print_poly "Scaled recovered" (A4 5 14 0 0)
  = String.append "  Scaled recovered: [5, 14, 0, 0]" newline /\
  A4 5 14 0 0 = A4 5 14 0 0.
Proof.
  split; [reflexivity|].
  apply (finite_line_injective "Scaled recovered"%string). reflexivity.
Defined.
